(** * PatternFlow: transform/downscale_local_mean

    A shallow embedding of [downscale_local_mean.py] and the properties of
    its two functions, [block_reduce] and [downscale_local_mean].

    Modelling conventions.
    - An ndarray (and a tensor once evaluated) is an element type, a shape
      and a dense row-major buffer.
    - Element values are rationals: arithmetic on float64 values is
      idealised as exact, its rounding is not modelled.  Integer element
      types hold integral rationals; their conversion to float64 rounds
      to the nearest double.
    - Python exceptions are values of [exn]; a computation returns the log
      of TensorFlow operations it performed together with either the
      exception raised or its result. *)

From Stdlib Require Import String.
From Stdlib Require Import List ZArith QArith Qround Qminmax Lia Bool Arith.
Import ListNotations.

Local Open Scope nat_scope.

(** ** Multi-indices and row-major buffers *)

Module Nd.

Inductive dtype : Type := int32 | int64 | float32 | float64.

Record ndarray : Type := mk_ndarray
  { dtype_of : dtype;
    shape : list nat;
    data : list Q }.

Definition ndim (a : ndarray) : nat := length (shape a).

(** Number of elements of an array of shape [sh]. *)
Definition size (sh : list nat) : nat := fold_right Nat.mul 1 sh.

(** All multi-indices of shape [sh], in row-major order. *)
Fixpoint indices (sh : list nat) : list (list nat) :=
  match sh with
  | [] => [[]]
  | n :: sh' => flat_map (fun i => map (cons i) (indices sh')) (seq 0 n)
  end.

(** Row-major offset of the multi-index [idx] in shape [sh]. *)
Fixpoint ravel (sh idx : list nat) : nat :=
  match sh, idx with
  | _ :: sh', i :: idx' => i * size sh' + ravel sh' idx'
  | _, _ => 0
  end.

(** [idx] addresses an element of an array of shape [sh]. *)
Fixpoint in_boundsb (sh idx : list nat) : bool :=
  match sh, idx with
  | [], [] => true
  | n :: sh', i :: idx' => (i <? n) && in_boundsb sh' idx'
  | _, _ => false
  end.

Definition in_bounds (sh idx : list nat) : Prop := in_boundsb sh idx = true.

Definition get (a : ndarray) (idx : list nat) : Q :=
  nth (ravel (shape a) idx) (data a) 0%Q.

(** The array of shape [sh] whose element at [idx] is [f idx]. *)
Definition tabulate (dt : dtype) (sh : list nat) (f : list nat -> Q) : ndarray :=
  {| dtype_of := dt; shape := sh; data := map f (indices sh) |}.

Definition well_formed (a : ndarray) : Prop :=
  length (data a) = size (shape a).

(** A one-dimensional array from a Python list. *)
Definition array1 (dt : dtype) (l : list Q) : ndarray :=
  {| dtype_of := dt; shape := [length l]; data := l |}.

End Nd.
Import Nd.

(** ** Exceptions and the execution log *)

Module Exec.

Inductive exn : Type :=
| ValueError (msg : string)
| IndexError
| TFShapeError
| ShapeMismatch.

(** [TFShapeError] stands for the [ValueError] TensorFlow raises when the
    shapes of an operation's arguments do not fit; its message is
    TensorFlow's own and differs from the two below. *)

(** The two [ValueError]s raised by [block_reduce] (lines 51 and 57). *)
Definition RankMismatch : exn :=
  ValueError "`block_size` must have the same length as `image.shape`.".
Definition InvalidBlockSize : exn :=
  ValueError "Down-sampling factors must be >= 1.".

(** The library calls that handle array data. *)
Inductive tf_op : Type :=
| op_convert_to_tensor | op_pad | op_view_as_blocks | op_cast | op_run | op_func.

(** One logged call: the operation and the array it produced. *)
Record event : Type := Ev { ev_op : tf_op; ev_out : ndarray }.

(** A computation: the calls made so far, then an exception or a result. *)
Definition M (A : Type) : Type := (list event * (exn + A))%type.

Definition ret {A} (a : A) : M A := ([], inr a).
Definition raise {A} (e : exn) : M A := ([], inl e).
Definition emit (op : tf_op) (out : ndarray) : M ndarray := ([Ev op out], inr out).

Definition bind {A B} (m : M A) (k : A -> M B) : M B :=
  match m with
  | (log, inl e) => (log, inl e)
  | (log, inr a) => (log ++ fst (k a), snd (k a))
  end.

Definition trace {A} (m : M A) : list event := fst m.
Definition outcome {A} (m : M A) : exn + A := snd m.

(** [for i in l: s = body(s, i)] *)
Fixpoint for_each {S} (l : list nat) (body : S -> nat -> M S) (s : S) : M S :=
  match l with
  | [] => ret s
  | i :: l' => bind (body s i) (for_each l' body)
  end.

(** Python's [l[i]] for [0 <= i]. *)
Definition index {A} (l : list A) (i : nat) : M A :=
  match nth_error l i with
  | Some x => ret x
  | None => raise IndexError
  end.

End Exec.
Import Exec.

Notation "x <- m ;; k" := (bind m (fun x => k))
  (at level 61, m at next level, right associativity).

(** ** The TensorFlow operations the program calls *)

Module TF.

Definition is_float (dt : dtype) : bool :=
  match dt with float32 | float64 => true | _ => false end.

(** The integer a rational is truncated to, toward zero. *)
Definition truncate (q : Q) : Z := Z.quot (Qnum q) (Zpos (Qden q)).

(** The integer [n] rounded to the nearest binary floating-point number
    with a significand of [prec] bits, ties to even. *)
Definition round_int (prec : Z) (n : Z) : Z :=
  let a := Z.abs n in
  let e := (Z.log2 a + 1 - prec)%Z in
  if (e <=? 0)%Z then n
  else
    let q := (a / 2 ^ e)%Z in
    let r := (a mod 2 ^ e)%Z in
    let half := (2 ^ (e - 1))%Z in
    let q' := if (r <? half)%Z then q
              else if (half <? r)%Z then (q + 1)%Z
              else if Z.even q then q else (q + 1)%Z in
    (Z.sgn n * (q' * 2 ^ e))%Z.

(** Conversion to float64 of an element of an array of type [src]: a
    float32 or float64 value is kept, an integer is rounded to the nearest
    double (53 bits of significand). *)
Definition to_float64 (src : dtype) (q : Q) : Q :=
  if is_float src then q else inject_Z (round_int 53 (truncate q)).

Definition Qsum (l : list Q) : Q := fold_right Qplus 0%Q l.

(** [tf.convert_to_tensor] and [session.run] change the representation of
    an array, not its contents. *)
Definition convert_to_tensor (a : ndarray) : M ndarray := emit op_convert_to_tensor a.
Definition session_run (a : ndarray) : M ndarray := emit op_run a.

Definition padded_shape (sh : list nat) (paddings : list (Z * Z)) : list nat :=
  map (fun '(n, (lo, hi)) => Z.to_nat lo + n + Z.to_nat hi) (combine sh paddings).

(** Position in the input of the output position [idx]. *)
Definition pad_source (paddings : list (Z * Z)) (idx : list nat) : list nat :=
  map (fun '(i, (lo, _)) => i - Z.to_nat lo) (combine idx paddings).

Definition pad_inside (sh : list nat) (paddings : list (Z * Z)) (idx : list nat) : bool :=
  forallb (fun '(i, (lo, _)) => Z.to_nat lo <=? i) (combine idx paddings)
  && in_boundsb sh (pad_source paddings idx).

(** [tf.pad(tensor, paddings, "CONSTANT", constant_values=c)]: [paddings]
    is a list of (before, after) pairs, one per axis, none negative.  The
    empty list is not such a list (as a tensor it has shape [0], not
    [n, 2]) and is refused, also for a tensor of rank 0. *)
Definition pad (x : ndarray) (paddings : list (Z * Z)) (constant_values : Q) : M ndarray :=
  match paddings with
  | [] => raise TFShapeError
  | _ :: _ =>
      if negb (length paddings =? ndim x) then raise TFShapeError
      else if negb (forallb (fun '(lo, hi) => (0 <=? lo)%Z && (0 <=? hi)%Z) paddings)
      then raise TFShapeError
      else emit op_pad
             (tabulate (dtype_of x) (padded_shape (shape x) paddings)
                (fun idx => if pad_inside (shape x) paddings idx
                            then get x (pad_source paddings idx)
                            else constant_values))
  end.

(** [tf.cast(x, tf.float64)] *)
Definition cast_float64 (x : ndarray) : M ndarray :=
  emit op_cast {| dtype_of := float64; shape := shape x;
                  data := map (to_float64 (dtype_of x)) (data x) |}.

(** A reduction as [block_reduce] calls it: [func(x, axis=axes)]. *)
Definition reducer : Type := ndarray -> list nat -> ndarray.

Definition axis_in (axes : list nat) (pos : nat) : bool := existsb (Nat.eqb pos) axes.

(** The entries of [l] whose position (counted from [pos]) satisfies [keep]. *)
Fixpoint select (keep : nat -> bool) (pos : nat) (l : list nat) : list nat :=
  match l with
  | [] => []
  | x :: l' => if keep pos then x :: select keep (S pos) l' else select keep (S pos) l'
  end.

(** The multi-index of the input made of [r] on the reduced axes and of
    [k] on the others. *)
Fixpoint scatter (red : nat -> bool) (pos : nat) (sh k r : list nat) : list nat :=
  match sh with
  | [] => []
  | _ :: sh' =>
      if red pos then hd 0 r :: scatter red (S pos) sh' k (tl r)
      else hd 0 k :: scatter red (S pos) sh' (tl k) r
  end.

(** [tf.reduce_*(x, axis=axes)]: the axes in [axes] disappear, the others
    keep their order; each output element aggregates the input elements
    that agree with it on the kept axes. *)
Definition reduce_with (agg : dtype -> list Q -> Q) : reducer :=
  fun x axes =>
    let red := axis_in axes in
    tabulate (dtype_of x) (select (fun p => negb (red p)) 0 (shape x))
      (fun k => agg (dtype_of x)
                  (map (fun r => get x (scatter red 0 (shape x) k r))
                     (indices (select red 0 (shape x))))).

(** The mean of a float tensor; of an integer tensor, the quotient
    truncated. *)
Definition mean_of (dt : dtype) (l : list Q) : Q :=
  let m := (Qsum l / inject_Z (Z.of_nat (length l)))%Q in
  if is_float dt then m else inject_Z (truncate m).

Definition count_of (l : list Q) : Q :=
  inject_Z (Z.of_nat (length (filter (fun q => negb (Qeq_bool q 0)) l))).

Definition reduce_sum : reducer := reduce_with (fun _ => Qsum).
Definition reduce_mean : reducer := reduce_with mean_of.
Definition reduce_min : reducer :=
  reduce_with (fun _ l => fold_right Qmin (hd 0%Q l) (tl l)).

(** [tf.math.count_nonzero(x, axis=axes)]: the result is an int64 tensor. *)
Definition count_nonzero : reducer :=
  fun x axes =>
    let r := reduce_with (fun _ => count_of) x axes in
    {| dtype_of := int64; shape := shape r; data := data r |}.

End TF.

(** ** The helper [view_as_blocks] *)

Definition block_counts (sh : list nat) (block_shape : list Z) : list nat :=
  map (fun '(n, b) => Z.to_nat (Z.of_nat n / b)) (combine sh block_shape).

(** Multi-index in the array of the element at offset [s] of block [b]. *)
Definition block_index (block_shape : list Z) (b s : list nat) : list nat :=
  map (fun '(bk, (sz, sk)) => bk * Z.to_nat sz + sk) (combine b (combine block_shape s)).

Definition blocks_fit (sh : list nat) (block_shape : list Z) : bool :=
  (length block_shape =? length sh)
  && forallb (fun '(n, b) => (1 <=? b)%Z && (Z.of_nat n mod b =? 0)%Z) (combine sh block_shape).

(** The blocked view itself: rank [2 * d], block-index axes first. *)
Definition block_view (arr_in : ndarray) (block_shape : list Z) : ndarray :=
  let d := ndim arr_in in
  tabulate (dtype_of arr_in)
    (block_counts (shape arr_in) block_shape ++ map Z.to_nat block_shape)
    (fun idx => get arr_in (block_index block_shape (firstn d idx) (skipn d idx))).

(** Modelled from the spec: [view_as_blocks] is called by [block_reduce]
    (line 67) but the source file neither defines nor imports it.  The
    spec's BlockView (section 4.1): a pure re-indexing of an array whose
    extents are multiples of the block size, the element at block index
    [b] and within-block offset [s] being the input element at
    [b * blockSize + s] on every axis; a violated precondition is a
    [ShapeMismatch].  The block-index axes come first and the within-block
    axes last, the ordering section 4.2 (step 4) requires for the reduction
    axes [rank .. 2*rank-1] that [block_reduce] passes. *)
Definition view_as_blocks (arr_in : ndarray) (block_shape : list Z) : M ndarray :=
  if negb (blocks_fit (shape arr_in) block_shape) then raise ShapeMismatch
  else emit op_view_as_blocks (block_view arr_in block_shape).

(** ** The program *)

(** Body of the loop at lines 55-62, for axis [i]. *)
Definition pad_width_step (image : ndarray) (block_size : list Z)
    (pad_width : list (Z * Z)) (i : nat) : M (list (Z * Z)) :=
  b <- index block_size i ;;
  if (b <? 1)%Z then raise InvalidBlockSize
  else
    s <- index (shape image) i ;;
    let after_width :=
      if negb (Z.of_nat s mod b =? 0)%Z then (b - Z.of_nat s mod b)%Z else 0%Z in
    ret (pad_width ++ [(0%Z, after_width)]).

(** Lines 54-62: the pad widths, one pair per axis. *)
Definition pad_width_loop (image : ndarray) (block_size : list Z) : M (list (Z * Z)) :=
  for_each (seq 0 (length block_size)) (pad_width_step image block_size) [].

(** [block_reduce(image, block_size, func, cval)], lines 32-75.  [cval] is
    a parameter of the function and is not passed to [tf.pad], whose
    [constant_values] keeps its default, 0. *)
Definition block_reduce (image : ndarray) (block_size : list Z)
    (func : TF.reducer) (cval : Q) : M ndarray :=
  if negb (length block_size =? ndim image) then raise RankMismatch
  else
    pad_width <- pad_width_loop image block_size ;;
    image <- TF.convert_to_tensor image ;;
    image <- TF.pad image pad_width 0%Q ;;
    blocked <- view_as_blocks image block_size ;;
    blocked <- TF.cast_float64 blocked ;;
    image <- TF.session_run image ;;
    blocked <- TF.session_run blocked ;;
    result <- emit op_func (func blocked (seq (ndim image) (ndim blocked - ndim image))) ;;
    TF.session_run result.

(** What [downscale_local_mean] accepts and returns. *)
Inductive value : Type :=
| Ndarray (a : ndarray)
| Tensor (a : ndarray).

Definition contents (v : value) : ndarray :=
  match v with Ndarray a | Tensor a => a end.

(** [downscale_local_mean(image, factors, cval)], lines 4-29. *)
Definition downscale_local_mean (image : value) (factors : list Z) (cval : Q) : M value :=
  image <- match image with
           | Tensor a => TF.session_run a
           | Ndarray a => ret a
           end ;;
  image_downscaled <- block_reduce image factors TF.reduce_mean cval ;;
  t <- TF.convert_to_tensor image_downscaled ;;
  ret (Tensor t).

(** ** Vocabulary of the specification *)

Module Spec.

(** A call that meets both preconditions of section 4.2. *)
Definition valid_call (image : ndarray) (block_size : list Z) : Prop :=
  length block_size = ndim image /\ Forall (fun b => (1 <= b)%Z) block_size.

(** PadWidth (section 3): [extra] for an axis of extent [s] and block
    size [b]. *)
Definition extra (s : nat) (b : Z) : Z := ((b - Z.of_nat s mod b) mod b)%Z.

Definition pad_widths (sh : list nat) (block_size : list Z) : list (Z * Z) :=
  map (fun '(s, b) => (0%Z, extra s b)) (combine sh block_size).

(** Step 2 (section 4.2): the array extended by [extra] positions at the
    end of every axis, the new positions holding [fill]. *)
Definition padded (image : ndarray) (block_size : list Z) (fill : Q) : ndarray :=
  tabulate (dtype_of image)
    (map (fun '(s, b) => s + Z.to_nat (extra s b)) (combine (shape image) block_size))
    (fun idx => if in_boundsb (shape image) idx then get image idx else fill).

(** ceil(s / b) *)
Definition ceil_div (s : nat) (b : Z) : nat :=
  Z.to_nat (Qceiling (inject_Z (Z.of_nat s) / inject_Z b)).

(** The elements of block [b] of [a], padding included. *)
Definition block_elements (a : ndarray) (block_size : list Z) (b : list nat) : list Q :=
  map (fun s => get a (block_index block_size b s)) (indices (map Z.to_nat block_size)).

(** Arithmetic average of all the elements of block [b] (section 4.3). *)
Definition block_average (a : ndarray) (block_size : list Z) (b : list nat) : Q :=
  (TF.Qsum (block_elements a block_size b)
   / inject_Z (Z.of_nat (size (map Z.to_nat block_size))))%Q.

(** The capability a reduction plugged into [block_reduce] must have
    (section 6): it removes exactly the axes it is given. *)
Definition reduces_axes (func : TF.reducer) : Prop :=
  forall x axes,
    shape (func x axes) = TF.select (fun p => negb (TF.axis_in axes p)) 0 (shape x).

Definition keeps_dtype (func : TF.reducer) : Prop :=
  forall x axes, dtype_of (func x axes) = dtype_of x.

(** The array converted to float64, as [tf.cast] does. *)
Definition as_float64 (a : ndarray) : ndarray :=
  {| dtype_of := float64; shape := shape a;
     data := map (TF.to_float64 (dtype_of a)) (data a) |}.

(** The arrays logged for operation [op]. *)
Definition outputs_of (op : tf_op) (log : list event) : list ndarray :=
  map ev_out
    (filter (fun e => match ev_op e, op with
                      | op_convert_to_tensor, op_convert_to_tensor
                      | op_pad, op_pad
                      | op_view_as_blocks, op_view_as_blocks
                      | op_cast, op_cast
                      | op_run, op_run
                      | op_func, op_func => true
                      | _, _ => false
                      end) log).

(** The log of a run that passes validation, for an image of rank 1 or
    more. *)
Definition run_log (image : ndarray) (block_size : list Z) (func : TF.reducer) : list event :=
  let p := padded image block_size 0 in
  let blocked := as_float64 (block_view p block_size) in
  let result := func blocked (seq (ndim image) (ndim image)) in
  [ Ev op_convert_to_tensor image; Ev op_pad p;
    Ev op_view_as_blocks (block_view p block_size); Ev op_cast blocked;
    Ev op_run p; Ev op_run blocked; Ev op_func result; Ev op_run result ].

Definition run_result (image : ndarray) (block_size : list Z) (func : TF.reducer) : ndarray :=
  func (as_float64 (block_view (padded image block_size 0) block_size))
    (seq (ndim image) (ndim image)).

(** Section 4.3, in the spec's words: BlockReduce with the mean, the
    padding of step 2 holding [cval]. *)
Definition downscale_spec (image : ndarray) (factors : list Z) (cval : Q) : ndarray :=
  let p := padded image factors cval in
  tabulate float64 (block_counts (shape p) factors) (block_average p factors).

(** A rank-0 array holding 5. *)
Definition scalar5 : ndarray := mk_ndarray int64 [] [5%Q].

(** The elements of block [b] that lie inside the image itself. *)
Definition real_block_elements (image : ndarray) (block_size : list Z) (b : list nat) : list Q :=
  map (get image)
    (filter (in_boundsb (shape image))
       (map (block_index block_size b) (indices (map Z.to_nat block_size)))).

(** Number of elements of a block. *)
Definition block_volume (block_size : list Z) : Q :=
  inject_Z (Z.of_nat (size (map Z.to_nat block_size))).

(** Every axis of the image is a whole number of blocks long. *)
Definition divisible (image : ndarray) (block_size : list Z) : Prop :=
  Forall2 (fun s b => (Z.of_nat s mod b = 0)%Z) (shape image) block_size.

(** The 2-D example of section 8: 4x4, values 0..15 in row-major order. *)
Definition image4x4 : ndarray :=
  tabulate float32 [4; 4] (fun idx => inject_Z (Z.of_nat (ravel [4; 4] idx))).

(** The 1-D example of section 8. *)
Definition image7 (dt : dtype) : ndarray := array1 dt [1; 2; 3; 4; 5; 6; 7]%Q.

End Spec.
Import Spec.

(** ** Facts about multi-indices *)

Section IndexFacts.

Lemma length_flat_map_const {A B} (f : A -> list B) (l : list A) (k : nat) :
  (forall x, In x l -> length (f x) = k) -> length (flat_map f l) = length l * k.
Proof.
  induction l as [|x l IH]; intros H; simpl; [reflexivity|].
  rewrite length_app, (H x (or_introl eq_refl)), IH; [lia|].
  intros y Hy. apply H. now right.
Qed.

Lemma length_indices (sh : list nat) : length (indices sh) = size sh.
Proof.
  induction sh as [|n sh IH]; simpl; [reflexivity|].
  rewrite (length_flat_map_const _ _ (size sh)).
  - now rewrite length_seq.
  - intros i _. now rewrite length_map.
Qed.

Lemma in_bounds_nil_inv (idx : list nat) : in_bounds [] idx -> idx = [].
Proof. destruct idx; [reflexivity | discriminate]. Qed.

Lemma in_bounds_cons_inv (n : nat) (sh idx : list nat) :
  in_bounds (n :: sh) idx ->
  exists i idx', idx = i :: idx' /\ i < n /\ in_bounds sh idx'.
Proof.
  destruct idx as [|i idx']; [discriminate|].
  unfold in_bounds; simpl. rewrite andb_true_iff, Nat.ltb_lt.
  intros [Hi H]. now exists i, idx'.
Qed.

Lemma in_bounds_cons (n i : nat) (sh idx : list nat) :
  i < n -> in_bounds sh idx -> in_bounds (n :: sh) (i :: idx).
Proof.
  unfold in_bounds; simpl. intros Hi H.
  rewrite H, andb_true_r. now apply Nat.ltb_lt.
Qed.

Lemma in_bounds_length (sh idx : list nat) :
  in_bounds sh idx -> length idx = length sh.
Proof.
  revert idx; induction sh as [|n sh IH]; intros idx H.
  - now rewrite (in_bounds_nil_inv _ H).
  - destruct (in_bounds_cons_inv _ _ _ H) as (i & idx' & -> & _ & H').
    simpl. f_equal. now apply IH.
Qed.

Lemma in_bounds_app (sh1 sh2 i1 i2 : list nat) :
  in_bounds sh1 i1 -> in_bounds sh2 i2 -> in_bounds (sh1 ++ sh2) (i1 ++ i2).
Proof.
  revert i1; induction sh1 as [|n sh1 IH]; intros i1 H1 H2.
  - now rewrite (in_bounds_nil_inv _ H1).
  - destruct (in_bounds_cons_inv _ _ _ H1) as (i & i1' & -> & Hi & H1').
    simpl. apply in_bounds_cons; [assumption | now apply IH].
Qed.

Lemma ravel_lt (sh idx : list nat) : in_bounds sh idx -> ravel sh idx < size sh.
Proof.
  revert idx; induction sh as [|n sh IH]; intros idx H.
  - rewrite (in_bounds_nil_inv _ H). simpl. lia.
  - destruct (in_bounds_cons_inv _ _ _ H) as (i & idx' & -> & Hi & H').
    specialize (IH _ H'). simpl. nia.
Qed.

(** The multi-indices of a shape are exactly the in-bounds ones. *)
Lemma in_indices (sh idx : list nat) : In idx (indices sh) <-> in_bounds sh idx.
Proof.
  revert idx; induction sh as [|n sh IH]; intros idx; simpl.
  - split.
    + intros [<-|[]]. reflexivity.
    + intros H. left. symmetry. now apply in_bounds_nil_inv.
  - rewrite in_flat_map. split.
    + intros (i & Hi & Hin). apply in_seq in Hi.
      apply in_map_iff in Hin. destruct Hin as (idx' & <- & Hin).
      apply in_bounds_cons; [lia | now apply IH].
    + intros H. destruct (in_bounds_cons_inv _ _ _ H) as (i & idx' & -> & Hi & H').
      exists i. split; [apply in_seq; lia|].
      apply in_map. now apply IH.
Qed.

Lemma nth_flat_map_const {B} (f : nat -> list B) (k n i j : nat) (d : B) :
  (forall x, x < n -> length (f x) = k) -> i < n -> j < k ->
  nth (i * k + j) (flat_map f (seq 0 n)) d = nth j (f i) d.
Proof.
  intros Hlen. revert i.
  assert (G : forall m s i, (forall x, x < s + m -> length (f x) = k) ->
              i < m -> j < k ->
              nth (i * k + j) (flat_map f (seq s m)) d = nth j (f (s + i)) d).
  { induction m as [|m IH]; intros s i Hl Hi Hj; [lia|].
    simpl. destruct i as [|i].
    - rewrite app_nth1 by (rewrite Hl; lia). simpl. now rewrite Nat.add_0_r.
    - rewrite app_nth2 by (rewrite Hl; lia).
      rewrite Hl by lia.
      replace (S i * k + j - k) with (i * k + j) by lia.
      rewrite IH; [| intros x Hx; apply Hl; lia | lia | assumption].
      f_equal. f_equal. lia. }
  intros i Hi Hj. now apply (G n 0 i).
Qed.

(** Reading the enumeration of multi-indices at a row-major offset gives
    back the multi-index. *)
Lemma nth_ravel_indices (sh idx d : list nat) :
  in_bounds sh idx -> nth (ravel sh idx) (indices sh) d = idx.
Proof.
  revert idx; induction sh as [|n sh IH]; intros idx H.
  - now rewrite (in_bounds_nil_inv _ H).
  - destruct (in_bounds_cons_inv _ _ _ H) as (i & idx' & -> & Hi & H').
    simpl.
    rewrite (nth_flat_map_const _ (size sh) n i); try assumption.
    + rewrite (nth_indep _ d (i :: d)) by
        (rewrite length_map, length_indices; now apply ravel_lt).
      rewrite (map_nth (cons i)). now rewrite IH.
    + intros x _. now rewrite length_map, length_indices.
    + now apply ravel_lt.
Qed.

Lemma get_tabulate (dt : dtype) (sh : list nat) (f : list nat -> Q) (idx : list nat) :
  in_bounds sh idx -> get (tabulate dt sh f) idx = f idx.
Proof.
  intros H. unfold get, tabulate; simpl.
  rewrite (nth_indep _ 0%Q (f [])) by
    (rewrite length_map, length_indices; now apply ravel_lt).
  rewrite (map_nth f). now rewrite nth_ravel_indices.
Qed.

Lemma tabulate_ext (dt : dtype) (sh : list nat) (f g : list nat -> Q) :
  (forall idx, in_bounds sh idx -> f idx = g idx) ->
  tabulate dt sh f = tabulate dt sh g.
Proof.
  intros H. unfold tabulate. f_equal.
  apply map_ext_in. intros idx Hin. apply H. now apply in_indices.
Qed.

Lemma tabulate_well_formed (dt : dtype) (sh : list nat) (f : list nat -> Q) :
  well_formed (tabulate dt sh f).
Proof. unfold well_formed; simpl. now rewrite length_map, length_indices. Qed.

End IndexFacts.

(** ** The execution monad *)

Section ExecFacts.

Lemma bind_ret {A B} (a : A) (k : A -> M B) : bind (ret a) k = k a.
Proof. unfold bind, ret; simpl. now destruct (k a). Qed.

Lemma bind_raise {A B} (e : exn) (k : A -> M B) : bind (raise e) k = raise e.
Proof. reflexivity. Qed.

Lemma bind_emit {B} (op : tf_op) (a : ndarray) (k : ndarray -> M B) :
  bind (emit op a) k = (Ev op a :: trace (k a), outcome (k a)).
Proof. reflexivity. Qed.

Lemma index_nth_error {A} (l : list A) (i : nat) (x : A) :
  nth_error l i = Some x -> index l i = ret x.
Proof. unfold index. now intros ->. Qed.

End ExecFacts.

(** ** The pad-width loop (lines 54-62) *)

Section PadWidth.

Lemma after_width_extra (s : nat) (b : Z) :
  (1 <= b)%Z ->
  (if negb (Z.of_nat s mod b =? 0)%Z then (b - Z.of_nat s mod b)%Z else 0%Z)
  = extra s b.
Proof.
  intros Hb. unfold extra.
  pose proof (Z.mod_pos_bound (Z.of_nat s) b ltac:(lia)) as Hm.
  destruct (Z.eqb_spec (Z.of_nat s mod b) 0) as [E|E]; simpl.
  - rewrite E, Z.sub_0_r. symmetry. apply Z_mod_same_full.
  - symmetry. apply Z.mod_small. lia.
Qed.

Lemma extra_bounds (s : nat) (b : Z) : (1 <= b)%Z -> (0 <= extra s b < b)%Z.
Proof. intros Hb. unfold extra. apply Z.mod_pos_bound. lia. Qed.

(** The invariant of PadWidth: the padded extent is a multiple of the
    block size. *)
Lemma extra_divides (s : nat) (b : Z) :
  (1 <= b)%Z -> ((Z.of_nat s + extra s b) mod b = 0)%Z.
Proof.
  intros Hb. unfold extra.
  rewrite Zplus_mod_idemp_r.
  replace (Z.of_nat s + (b - Z.of_nat s mod b))%Z
    with (Z.of_nat s - Z.of_nat s mod b + 1 * b)%Z by lia.
  rewrite Z_mod_plus_full.
  rewrite Zminus_mod_idemp_r, Z.sub_diag. apply Zmod_0_l.
Qed.

Lemma length_pad_widths (sh : list nat) (bs : list Z) :
  length bs = length sh -> length (pad_widths sh bs) = length sh.
Proof.
  intros H. unfold pad_widths. rewrite length_map, length_combine. lia.
Qed.

(** The loop from axis [length bs0] on, with [acc] accumulated so far. *)
Lemma pad_width_loop_from (dt : dtype) (d : list Q) (sh0 sh1 : list nat)
    (bs0 bs1 : list Z) (acc : list (Z * Z)) :
  length sh0 = length bs0 -> length sh1 = length bs1 ->
  for_each (seq (length bs0) (length bs1))
    (pad_width_step (mk_ndarray dt (sh0 ++ sh1) d) (bs0 ++ bs1)) acc
  = if forallb (fun b => (1 <=? b)%Z) bs1
    then ret (acc ++ pad_widths sh1 bs1)
    else raise InvalidBlockSize.
Proof.
  revert sh0 sh1 bs0 acc.
  induction bs1 as [|b bs1 IH]; intros sh0 sh1 bs0 acc H0 H1.
  - destruct sh1; [|discriminate]. simpl. now rewrite app_nil_r.
  - destruct sh1 as [|s sh1]; [discriminate|].
    injection H1 as H1.
    cbn [length seq for_each forallb].
    unfold pad_width_step at 1.
    rewrite (index_nth_error _ _ b), bind_ret
      by (rewrite nth_error_app2, Nat.sub_diag by lia; reflexivity).
    destruct (Z.ltb_spec b 1) as [Hb|Hb].
    + rewrite bind_raise.
      destruct (Z.leb_spec 1 b); [lia | reflexivity].
    + cbn [shape].
      rewrite (index_nth_error _ _ s), bind_ret
        by (rewrite nth_error_app2, H0, Nat.sub_diag by lia; reflexivity).
      rewrite after_width_extra, bind_ret by assumption.
      destruct (Z.leb_spec 1 b) as [_|]; [|lia]. cbn [andb].
      replace (sh0 ++ s :: sh1) with ((sh0 ++ [s]) ++ sh1)
        by now rewrite <- app_assoc.
      replace (bs0 ++ b :: bs1) with ((bs0 ++ [b]) ++ bs1)
        by now rewrite <- app_assoc.
      replace (S (length bs0)) with (length (bs0 ++ [b]))
        by (rewrite length_app; simpl; lia).
      rewrite IH by (rewrite ?length_app; simpl; lia).
      unfold pad_widths; cbn [combine map].
      now rewrite <- app_assoc.
Qed.

Lemma pad_width_loop_result (image : ndarray) (block_size : list Z) :
  length block_size = ndim image ->
  pad_width_loop image block_size
  = if forallb (fun b => (1 <=? b)%Z) block_size
    then ret (pad_widths (shape image) block_size)
    else raise InvalidBlockSize.
Proof.
  intros H. destruct image as [dt sh d]. unfold ndim in H; cbn [shape] in *.
  unfold pad_width_loop.
  exact (pad_width_loop_from dt d [] sh [] block_size [] eq_refl (eq_sym H)).
Qed.

Lemma forallb_ge1 (bs : list Z) :
  forallb (fun b => (1 <=? b)%Z) bs = true <-> Forall (fun b => (1 <= b)%Z) bs.
Proof.
  rewrite forallb_forall, Forall_forall.
  split; intros H b Hb; specialize (H b Hb); lia.
Qed.

End PadWidth.

(** ** Padding (lines 63-64) *)

Section Padding.

Lemma padded_shape_pad_widths (sh : list nat) (bs : list Z) :
  TF.padded_shape sh (pad_widths sh bs)
  = map (fun '(s, b) => s + Z.to_nat (extra s b)) (combine sh bs).
Proof.
  unfold TF.padded_shape, pad_widths.
  revert bs; induction sh as [|s sh IH]; intros [|b bs]; simpl; try reflexivity.
  now rewrite IH.
Qed.

Lemma pad_widths_nonneg (sh : list nat) (bs : list Z) :
  Forall (fun b => (1 <= b)%Z) bs ->
  forallb (fun '(lo, hi) => (0 <=? lo)%Z && (0 <=? hi)%Z) (pad_widths sh bs) = true.
Proof.
  unfold pad_widths.
  revert bs; induction sh as [|s sh IH]; intros [|b bs] H; simpl; try reflexivity.
  inversion H as [|? ? Hb Hbs]; subst.
  rewrite IH by assumption.
  pose proof (extra_bounds s b Hb).
  destruct (Z.leb_spec 0 (extra s b)); [reflexivity | lia].
Qed.

Lemma pad_source_pad_widths (sh : list nat) (bs : list Z) (idx : list nat) :
  length bs = length sh -> length idx = length sh ->
  TF.pad_source (pad_widths sh bs) idx = idx.
Proof.
  unfold TF.pad_source, pad_widths.
  revert bs idx; induction sh as [|s sh IH]; intros [|b bs] [|i idx] Hb Hi;
    try discriminate; simpl; try reflexivity.
  rewrite IH by (simpl in *; lia). now rewrite Nat.sub_0_r.
Qed.

Lemma pad_inside_pad_widths (sh : list nat) (bs : list Z) (idx : list nat) :
  length bs = length sh -> length idx = length sh ->
  TF.pad_inside sh (pad_widths sh bs) idx = in_boundsb sh idx.
Proof.
  intros Hb Hi. unfold TF.pad_inside.
  rewrite pad_source_pad_widths by assumption.
  replace (forallb _ _) with true; [reflexivity|].
  symmetry. apply forallb_forall.
  intros [i [lo hi]] Hin. apply in_combine_r in Hin.
  unfold pad_widths in Hin. apply in_map_iff in Hin.
  destruct Hin as ([s b] & E & _). injection E as <- _. reflexivity.
Qed.

Lemma shape_padded (image : ndarray) (bs : list Z) (c : Q) :
  shape (padded image bs c)
  = map (fun '(s, b) => s + Z.to_nat (extra s b)) (combine (shape image) bs).
Proof. reflexivity. Qed.

Lemma ndim_padded (image : ndarray) (bs : list Z) (c : Q) :
  length bs = ndim image -> ndim (padded image bs c) = ndim image.
Proof.
  intros H. unfold ndim in *. rewrite shape_padded, length_map, length_combine. lia.
Qed.

(** [tf.pad] with the pad widths of the loop and fill value [c] builds
    [padded image bs c]. *)
Lemma pad_pad_widths (image : ndarray) (bs : list Z) (c : Q) :
  valid_call image bs -> 1 <= ndim image ->
  TF.pad image (pad_widths (shape image) bs) c = emit op_pad (padded image bs c).
Proof.
  intros [Hlen Hbs] Hrank. unfold ndim in Hlen. unfold TF.pad.
  pose proof (length_pad_widths (shape image) bs Hlen) as Hpw.
  destruct (pad_widths (shape image) bs) as [|pw0 pws] eqn:Epw;
    [unfold ndim in Hrank; simpl in Hpw; lia|].
  rewrite <- Epw in *. clear Epw pw0 pws.
  rewrite length_pad_widths by assumption.
  unfold ndim. rewrite Nat.eqb_refl. cbn [negb].
  rewrite pad_widths_nonneg by assumption. cbn [negb].
  f_equal. unfold padded. rewrite padded_shape_pad_widths.
  apply tabulate_ext. intros idx Hidx.
  apply in_bounds_length in Hidx.
  rewrite length_map, length_combine in Hidx.
  rewrite pad_inside_pad_widths, pad_source_pad_widths by lia.
  reflexivity.
Qed.

(** The padded array's extent is a multiple of the block size along
    every axis, so the blocked view exists. *)
Lemma blocks_fit_padded (image : ndarray) (bs : list Z) (c : Q) :
  valid_call image bs -> blocks_fit (shape (padded image bs c)) bs = true.
Proof.
  intros [Hlen Hbs]. unfold ndim in Hlen. unfold blocks_fit.
  rewrite shape_padded, length_map, length_combine.
  replace (length bs =? _) with true by (symmetry; apply Nat.eqb_eq; lia).
  cbn [andb]. clear Hlen.
  revert bs Hbs. generalize (shape image) as sh.
  induction sh as [|s sh IH]; intros [|b bs] H; simpl; try reflexivity.
  inversion H as [|? ? Hb Hbs]; subst.
  rewrite IH by assumption.
  pose proof (extra_bounds s b Hb).
  rewrite Nat2Z.inj_add, Z2Nat.id by lia.
  rewrite extra_divides by assumption.
  destruct (Z.leb_spec 1 b); [reflexivity | lia].
Qed.

(** Step 2 keeps the original elements at their positions ... *)
Lemma padded_inside (image : ndarray) (bs : list Z) (c : Q) (idx : list nat) :
  valid_call image bs -> in_bounds (shape image) idx ->
  get (padded image bs c) idx = get image idx.
Proof.
  intros [Hlen Hbs] Hidx. unfold padded.
  rewrite get_tabulate; [now rewrite Hidx|].
  unfold ndim in Hlen. revert bs idx Hlen Hbs Hidx.
  generalize (shape image) as sh.
  induction sh as [|s sh IH]; intros [|b bs] idx Hlen Hbs Hidx; try discriminate.
  - exact Hidx.
  - destruct (in_bounds_cons_inv _ _ _ Hidx) as (i & idx' & -> & Hi & H').
    inversion Hbs; subst. simpl.
    apply in_bounds_cons; [lia|]. apply IH; auto.
Qed.

(** ... and fills every new position with the fill value. *)
Lemma padded_outside (image : ndarray) (bs : list Z) (c : Q) (idx : list nat) :
  in_bounds (shape (padded image bs c)) idx -> ~ in_bounds (shape image) idx ->
  get (padded image bs c) idx = c.
Proof.
  intros Hidx Hout. unfold padded in *. cbn [shape tabulate] in Hidx.
  rewrite get_tabulate by assumption.
  unfold in_bounds in Hout. now destruct (in_boundsb (shape image) idx).
Qed.

End Padding.

(** ** Reductions over the trailing axes (line 73) *)

Section Reduction.

Lemma axis_in_seq (d n p : nat) : TF.axis_in (seq d n) p = (d <=? p) && (p <? d + n).
Proof.
  unfold TF.axis_in.
  destruct (existsb (Nat.eqb p) (seq d n)) eqn:E.
  - apply existsb_exists in E. destruct E as (x & Hx & Hp).
    apply in_seq in Hx. apply Nat.eqb_eq in Hp. subst x. symmetry.
    apply andb_true_iff. split; [apply Nat.leb_le | apply Nat.ltb_lt]; lia.
  - symmetry. apply not_true_is_false. intros H.
    apply andb_true_iff in H. destruct H as [H1 H2].
    apply Nat.leb_le in H1. apply Nat.ltb_lt in H2.
    assert (Hex : existsb (Nat.eqb p) (seq d n) = true).
    { apply existsb_exists. exists p. split; [apply in_seq; lia | apply Nat.eqb_refl]. }
    congruence.
Qed.

Lemma select_all (keep : nat -> bool) (pos : nat) (l : list nat) :
  (forall p, pos <= p < pos + length l -> keep p = true) -> TF.select keep pos l = l.
Proof.
  revert pos; induction l as [|x l IH]; intros pos H; simpl; [reflexivity|].
  rewrite H by (simpl; lia). f_equal. apply IH.
  intros p Hp. apply H. simpl. lia.
Qed.

Lemma select_none (keep : nat -> bool) (pos : nat) (l : list nat) :
  (forall p, pos <= p < pos + length l -> keep p = false) -> TF.select keep pos l = [].
Proof.
  revert pos; induction l as [|x l IH]; intros pos H; simpl; [reflexivity|].
  rewrite H by (simpl; lia). apply IH.
  intros p Hp. apply H. simpl. lia.
Qed.

Lemma select_app (keep : nat -> bool) (pos : nat) (l1 l2 : list nat) :
  TF.select keep pos (l1 ++ l2)
  = TF.select keep pos l1 ++ TF.select keep (pos + length l1) l2.
Proof.
  revert pos; induction l1 as [|x l1 IH]; intros pos; simpl.
  - now rewrite Nat.add_0_r.
  - rewrite IH. replace (S pos + length l1) with (pos + S (length l1)) by lia.
    now destruct (keep pos).
Qed.

(** Over the last [length sh2] axes of a shape [sh1 ++ sh2], the kept
    shape is [sh1] and the reduced shape is [sh2]. *)
Lemma select_kept_trailing (sh1 sh2 : list nat) :
  TF.select (fun p => negb (TF.axis_in (seq (length sh1) (length sh2)) p)) 0 (sh1 ++ sh2)
  = sh1.
Proof.
  rewrite select_app, select_all, select_none; [apply app_nil_r | |];
    intros p Hp; rewrite axis_in_seq.
  - replace (length sh1 <=? p) with true by (symmetry; apply Nat.leb_le; lia).
    replace (p <? length sh1 + length sh2) with true
      by (symmetry; apply Nat.ltb_lt; lia).
    reflexivity.
  - replace (length sh1 <=? p) with false by (symmetry; apply Nat.leb_gt; lia).
    reflexivity.
Qed.

Lemma select_reduced_trailing (sh1 sh2 : list nat) :
  TF.select (TF.axis_in (seq (length sh1) (length sh2))) 0 (sh1 ++ sh2) = sh2.
Proof.
  rewrite select_app, select_none, select_all; [reflexivity | |];
    intros p Hp; rewrite axis_in_seq.
  - replace (length sh1 <=? p) with true by (symmetry; apply Nat.leb_le; lia).
    replace (p <? length sh1 + length sh2) with true
      by (symmetry; apply Nat.ltb_lt; lia).
    reflexivity.
  - replace (length sh1 <=? p) with false by (symmetry; apply Nat.leb_gt; lia).
    reflexivity.
Qed.

Lemma scatter_reduced (red : nat -> bool) (pos : nat) (sh k r : list nat) :
  (forall p, pos <= p < pos + length sh -> red p = true) ->
  length r = length sh -> TF.scatter red pos sh k r = r.
Proof.
  revert pos r; induction sh as [|n sh IH]; intros pos [|j r] H Hr;
    try discriminate; simpl; [reflexivity|].
  rewrite H by (simpl; lia). f_equal.
  apply IH; [|simpl in Hr; lia].
  intros p Hp. apply H. simpl. lia.
Qed.

Lemma scatter_trailing (red : nat -> bool) (pos : nat) (sh1 sh2 k r : list nat) :
  (forall p, pos <= p < pos + length sh1 -> red p = false) ->
  (forall p, pos + length sh1 <= p < pos + length sh1 + length sh2 -> red p = true) ->
  length k = length sh1 -> length r = length sh2 ->
  TF.scatter red pos (sh1 ++ sh2) k r = k ++ r.
Proof.
  revert pos k; induction sh1 as [|n sh1 IH]; intros pos [|i k] H1 H2 Hk Hr;
    try discriminate; simpl.
  - apply scatter_reduced; [|assumption].
    intros p Hp. apply H2. simpl. lia.
  - rewrite H1 by (simpl; lia). f_equal.
    apply IH; [| |simpl in Hk; lia|assumption].
    + intros p Hp. apply H1. simpl. lia.
    + intros p Hp. apply H2. simpl. lia.
Qed.

(** A reduction over the last [length sh2] axes, element by element. *)
Lemma reduce_with_trailing (agg : dtype -> list Q -> Q) (dt : dtype)
    (sh1 sh2 : list nat) (d : list Q) :
  let x := mk_ndarray dt (sh1 ++ sh2) d in
  TF.reduce_with agg x (seq (length sh1) (length sh2))
  = tabulate dt sh1
      (fun k => agg dt (map (fun r => get x (k ++ r)) (indices sh2))).
Proof.
  intros x. unfold TF.reduce_with. cbn [shape dtype_of x].
  rewrite select_kept_trailing, select_reduced_trailing.
  apply tabulate_ext. intros k Hk. f_equal.
  apply map_ext_in. intros r Hr. apply in_indices in Hr. f_equal.
  apply scatter_trailing.
  - intros p Hp. rewrite axis_in_seq.
    replace (length sh1 <=? p) with false by (symmetry; apply Nat.leb_gt; lia).
    reflexivity.
  - intros p Hp. rewrite axis_in_seq.
    replace (length sh1 <=? p) with true by (symmetry; apply Nat.leb_le; lia).
    replace (p <? length sh1 + length sh2) with true
      by (symmetry; apply Nat.ltb_lt; lia).
    reflexivity.
  - now apply in_bounds_length.
  - now apply in_bounds_length.
Qed.

Lemma reduce_with_reduces_axes (agg : dtype -> list Q -> Q) :
  reduces_axes (TF.reduce_with agg).
Proof. intros x axes. reflexivity. Qed.

Lemma reduce_with_keeps_dtype (agg : dtype -> list Q -> Q) :
  keeps_dtype (TF.reduce_with agg).
Proof. intros x axes. reflexivity. Qed.

End Reduction.

(** ** A run of [block_reduce] *)

Section Run.

Lemma length_block_counts (sh : list nat) (bs : list Z) :
  length bs = length sh -> length (block_counts sh bs) = length sh.
Proof. intros H. unfold block_counts. rewrite length_map, length_combine. lia. Qed.

Lemma ndim_block_view (a : ndarray) (bs : list Z) :
  length bs = ndim a -> ndim (block_view a bs) = ndim a + ndim a.
Proof.
  intros H. unfold ndim in *. unfold block_view; cbn [shape tabulate].
  rewrite length_app, length_block_counts, length_map; lia.
Qed.

Lemma to_float64_zero (dt : dtype) : TF.to_float64 dt 0 = 0%Q.
Proof. now destruct dt. Qed.

Lemma get_as_float64 (a : ndarray) (idx : list nat) :
  get (as_float64 a) idx = TF.to_float64 (dtype_of a) (get a idx).
Proof.
  unfold get, as_float64; cbn [shape data].
  rewrite <- (to_float64_zero (dtype_of a)) at 1. apply map_nth.
Qed.

(** A valid call on a rank-0 image stops in [tf.pad]: the loop leaves
    [pad_width] empty. *)
Lemma block_reduce_rank0 (image : ndarray) (func : TF.reducer) (cval : Q) :
  ndim image = 0 ->
  block_reduce image [] func cval = ([Ev op_convert_to_tensor image], inl TFShapeError).
Proof.
  intros H0. unfold block_reduce. rewrite H0. reflexivity.
Qed.

(** A call that meets the preconditions runs to the end: it pads with
    zeros, views the padded array as blocks, casts the view to float64
    and applies [func] over the last [ndim image] axes. *)
Lemma block_reduce_run (image : ndarray) (block_size : list Z)
    (func : TF.reducer) (cval : Q) :
  valid_call image block_size -> 1 <= ndim image ->
  block_reduce image block_size func cval
  = (run_log image block_size func, inr (run_result image block_size func)).
Proof.
  intros Hv Hrank. pose proof Hv as [Hlen Hbs].
  unfold block_reduce.
  rewrite Hlen, Nat.eqb_refl. cbn [negb].
  rewrite pad_width_loop_result by assumption.
  rewrite (proj2 (forallb_ge1 _) Hbs), bind_ret.
  unfold TF.convert_to_tensor. rewrite bind_emit.
  rewrite pad_pad_widths by assumption. rewrite bind_emit.
  unfold view_as_blocks. rewrite blocks_fit_padded by assumption.
  cbn [negb]. rewrite bind_emit. unfold TF.cast_float64.
  fold (as_float64 (block_view (padded image block_size 0) block_size)).
  rewrite bind_emit.
  unfold TF.session_run. rewrite !bind_emit.
  unfold run_log, run_result, emit, trace, outcome; cbn [fst snd].
  replace (ndim (as_float64 (block_view (padded image block_size 0) block_size))
           - ndim (padded image block_size 0)) with (ndim image).
  - rewrite ndim_padded by assumption. reflexivity.
  - change (ndim (as_float64 ?a)) with (ndim a).
    rewrite ndim_block_view; rewrite ndim_padded by assumption; lia.
Qed.

(** A call that fails validation stops before any array operation. *)
Lemma block_reduce_rank_mismatch (image : ndarray) (block_size : list Z)
    (func : TF.reducer) (cval : Q) :
  length block_size <> ndim image ->
  block_reduce image block_size func cval = ([], inl RankMismatch).
Proof.
  intros H. unfold block_reduce.
  apply Nat.eqb_neq in H. now rewrite H.
Qed.

Lemma block_reduce_invalid_block_size (image : ndarray) (block_size : list Z)
    (func : TF.reducer) (cval : Q) :
  length block_size = ndim image -> ~ Forall (fun b => (1 <= b)%Z) block_size ->
  block_reduce image block_size func cval = ([], inl InvalidBlockSize).
Proof.
  intros Hlen Hbs. unfold block_reduce.
  rewrite Hlen, Nat.eqb_refl. cbn [negb].
  rewrite pad_width_loop_result by assumption.
  destruct (forallb _ block_size) eqn:E.
  - exfalso. apply Hbs. now apply forallb_ge1.
  - reflexivity.
Qed.

Lemma valid_call_dec (image : ndarray) (block_size : list Z) :
  {valid_call image block_size}
  + {length block_size <> ndim image}
  + {length block_size = ndim image /\ ~ Forall (fun b => (1 <= b)%Z) block_size}.
Proof.
  destruct (Nat.eq_dec (length block_size) (ndim image)) as [E|E].
  - destruct (forallb (fun b => (1 <=? b)%Z) block_size) eqn:F.
    + left. left. split; [assumption | now apply forallb_ge1].
    + right. split; [assumption|]. intros H. apply forallb_ge1 in H. congruence.
  - left. now right.
Qed.

(** [cval] plays no part in [block_reduce]. *)
Lemma block_reduce_cval_unused (image : ndarray) (block_size : list Z)
    (func : TF.reducer) (c1 c2 : Q) :
  block_reduce image block_size func c1 = block_reduce image block_size func c2.
Proof. reflexivity. Qed.

End Run.

(** ** Shapes and elements of the result *)

Section Result.

Lemma ceil_div_neg_div (s : nat) (b : Z) :
  Qceiling (inject_Z (Z.of_nat s) / inject_Z b) = (- (- Z.of_nat s / b))%Z.
Proof.
  unfold Qceiling. f_equal.
  rewrite Zdiv_Qdiv. apply Qfloor_comp.
  rewrite inject_Z_opp. unfold Qdiv. ring.
Qed.

(** The number of blocks along an axis of the padded array is
    ceil(s / b). *)
Lemma block_count_ceil (s : nat) (b : Z) :
  (1 <= b)%Z ->
  Z.to_nat (Z.of_nat (s + Z.to_nat (extra s b)) / b) = ceil_div s b.
Proof.
  intros Hb. unfold ceil_div. rewrite ceil_div_neg_div. f_equal.
  pose proof (extra_bounds s b Hb) as He.
  rewrite Nat2Z.inj_add, Z2Nat.id by lia.
  pose proof (extra_divides s b Hb) as Hd.
  apply Z.div_exact in Hd; [|lia].
  set (q := ((Z.of_nat s + extra s b) / b)%Z) in *.
  symmetry. apply Z.opp_inj. rewrite Z.opp_involutive.
  symmetry. apply (Z.div_unique_pos _ _ _ (extra s b)); lia.
Qed.

Lemma block_counts_padded (image : ndarray) (bs : list Z) (c : Q) :
  Forall (fun b => (1 <= b)%Z) bs ->
  block_counts (shape (padded image bs c)) bs
  = map (fun '(s, b) => ceil_div s b) (combine (shape image) bs).
Proof.
  rewrite shape_padded. unfold block_counts.
  generalize (shape image) as sh.
  intros sh; revert bs; induction sh as [|s sh IH]; intros [|b bs] H; simpl;
    try reflexivity.
  inversion H; subst. rewrite IH by assumption.
  now rewrite block_count_ceil.
Qed.

Lemma shape_run_result (image : ndarray) (bs : list Z) (func : TF.reducer) :
  valid_call image bs -> reduces_axes func ->
  shape (run_result image bs func)
  = map (fun '(s, b) => ceil_div s b) (combine (shape image) bs).
Proof.
  intros [Hlen Hbs] Hf. unfold run_result. rewrite Hf.
  cbn [as_float64 shape]. unfold block_view; cbn [shape tabulate].
  set (nb := block_counts _ bs).
  assert (Hnb : length nb = ndim image).
  { unfold nb. rewrite length_block_counts; fold (ndim (padded image bs 0));
      rewrite ndim_padded; auto. }
  assert (Hbn : length (map Z.to_nat bs) = ndim image) by now rewrite length_map.
  replace (seq (ndim image) (ndim image))
    with (seq (length nb) (length (map Z.to_nat bs))) by congruence.
  rewrite select_kept_trailing.
  unfold nb. now apply block_counts_padded.
Qed.

Lemma block_index_firstn_skipn (bs : list Z) (k r : list nat) :
  block_index bs (firstn (length k) (k ++ r)) (skipn (length k) (k ++ r))
  = block_index bs k r.
Proof.
  rewrite firstn_app, Nat.sub_diag, firstn_all, skipn_app, Nat.sub_diag, skipn_all.
  simpl. now rewrite app_nil_r.
Qed.

(** With a reduction of the [tf.reduce_*] family, the element at block
    index [b] aggregates the elements of block [b] of the padded array,
    converted to float64. *)
Lemma run_result_reduce_with (agg : dtype -> list Q -> Q) (image : ndarray) (bs : list Z) :
  valid_call image bs ->
  let p := padded image bs 0 in
  run_result image bs (TF.reduce_with agg)
  = tabulate float64 (block_counts (shape p) bs)
      (fun b => agg float64 (block_elements (as_float64 p) bs b)).
Proof.
  intros [Hlen Hbs] p. unfold run_result. fold p.
  assert (Hp : ndim p = ndim image) by now apply ndim_padded.
  set (nb := block_counts (shape p) bs).
  assert (Hnb : length nb = ndim image).
  { unfold nb. rewrite length_block_counts; fold (ndim p); lia. }
  assert (Hbn : length (map Z.to_nat bs) = ndim image) by now rewrite length_map.
  replace (seq (ndim image) (ndim image))
    with (seq (length nb) (length (map Z.to_nat bs))) by congruence.
  change (as_float64 (block_view p bs))
    with (mk_ndarray float64 (nb ++ map Z.to_nat bs)
            (data (as_float64 (block_view p bs)))).
  rewrite reduce_with_trailing.
  apply tabulate_ext. intros k Hk. f_equal.
  unfold block_elements. apply map_ext_in. intros r Hr. apply in_indices in Hr.
  change (get (mk_ndarray float64 (nb ++ map Z.to_nat bs)
                 (data (as_float64 (block_view p bs)))) (k ++ r))
    with (get (as_float64 (block_view p bs)) (k ++ r)).
  rewrite !get_as_float64.
  change (dtype_of (block_view p bs)) with (dtype_of p). f_equal.
  unfold block_view. fold nb.
  rewrite get_tabulate by now apply in_bounds_app.
  rewrite Hp, <- Hnb, <- (in_bounds_length _ _ Hk).
  now rewrite block_index_firstn_skipn.
Qed.

Lemma length_block_elements (a : ndarray) (bs : list Z) (b : list nat) :
  length (block_elements a bs b) = size (map Z.to_nat bs).
Proof. unfold block_elements. now rewrite length_map, length_indices. Qed.

Lemma run_result_mean (image : ndarray) (bs : list Z) :
  valid_call image bs ->
  let p := padded image bs 0 in
  run_result image bs TF.reduce_mean
  = tabulate float64 (block_counts (shape p) bs) (block_average (as_float64 p) bs).
Proof.
  intros Hv p. unfold TF.reduce_mean.
  rewrite run_result_reduce_with by assumption. fold p.
  apply tabulate_ext. intros b _.
  unfold TF.mean_of, block_average; cbn [TF.is_float].
  now rewrite length_block_elements.
Qed.

End Result.

(** ** The properties of the specification *)

Section Laws.

Lemma nth_error_map_combine {A B C} (f : A * B -> C) (l1 : list A) (l2 : list B)
    (i : nat) (a : A) (b : B) :
  nth_error l1 i = Some a -> nth_error l2 i = Some b ->
  nth_error (map f (combine l1 l2)) i = Some (f (a, b)).
Proof.
  revert l2 i; induction l1 as [|x l1 IH]; intros [|y l2] [|i] H1 H2;
    try discriminate; simpl in *.
  - congruence.
  - now apply IH.
Qed.

(** The array [tf.pad] produces in a run: always zero-filled. *)
Lemma block_reduce_pads_with_zero (image : ndarray) (bs : list Z)
    (func : TF.reducer) (cval : Q) :
  valid_call image bs -> 1 <= ndim image ->
  outputs_of op_pad (trace (block_reduce image bs func cval)) = [padded image bs 0].
Proof. intros Hv Hrank. now rewrite block_reduce_run. Qed.

(** The first component below 1 and the valid components before it. *)
Lemma first_invalid (bs : list Z) :
  Exists (fun b => (b < 1)%Z) bs ->
  exists bsA b bsB,
    bs = bsA ++ b :: bsB /\ Forall (fun b => (1 <= b)%Z) bsA /\ (b < 1)%Z.
Proof.
  induction bs as [|b0 bs IH]; intros H; [inversion H|].
  destruct (Z.ltb_spec b0 1) as [Hb|Hb].
  - exists [], b0, bs. repeat split; [constructor | assumption].
  - inversion H as [? ? H0|? ? H0]; subst; [lia|].
    destruct (IH H0) as (bsA & b & bsB & -> & HA & Hlt).
    exists (b0 :: bsA), b, bsB. repeat split; [now constructor | assumption].
Qed.

(** The loop over a run of valid components: one pad width each. *)
Lemma pad_width_loop_prefix (dt : dtype) (d : list Q) (sh0 shA shB : list nat)
    (bs0 bsA bsB : list Z) (acc : list (Z * Z)) :
  length sh0 = length bs0 -> length shA = length bsA ->
  Forall (fun b => (1 <= b)%Z) bsA ->
  for_each (seq (length bs0) (length bsA))
    (pad_width_step (mk_ndarray dt (sh0 ++ shA ++ shB) d) (bs0 ++ bsA ++ bsB)) acc
  = ret (acc ++ pad_widths shA bsA).
Proof.
  revert sh0 shA bs0 acc.
  induction bsA as [|b bsA IH]; intros sh0 shA bs0 acc H0 HA Hall.
  - destruct shA; [|discriminate]. simpl. now rewrite app_nil_r.
  - destruct shA as [|s shA]; [discriminate|].
    injection HA as HA. inversion Hall as [|? ? Hb Hall']; subst.
    cbn [length seq for_each].
    unfold pad_width_step at 1.
    rewrite (index_nth_error _ _ b), bind_ret
      by (rewrite nth_error_app2, Nat.sub_diag by lia; reflexivity).
    destruct (Z.ltb_spec b 1) as [Hlt|_]; [lia|].
    cbn [shape].
    rewrite (index_nth_error _ _ s), bind_ret
      by (rewrite nth_error_app2, H0, Nat.sub_diag by lia; reflexivity).
    rewrite after_width_extra, bind_ret by assumption.
    replace (sh0 ++ (s :: shA) ++ shB) with ((sh0 ++ [s]) ++ shA ++ shB)
      by (rewrite <- app_assoc; reflexivity).
    replace (bs0 ++ (b :: bsA) ++ bsB) with ((bs0 ++ [b]) ++ bsA ++ bsB)
      by (rewrite <- app_assoc; reflexivity).
    replace (S (length bs0)) with (length (bs0 ++ [b]))
      by (rewrite length_app; simpl; lia).
    rewrite IH by (rewrite ?length_app; simpl; lia || assumption).
    unfold pad_widths; cbn [combine map].
    now rewrite <- app_assoc.
Qed.

Lemma downscale_outcome (image : value) (factors : list Z) (cval : Q) :
  outcome (downscale_local_mean image factors cval)
  = match outcome (block_reduce (contents image) factors TF.reduce_mean cval) with
    | inl e => inl e
    | inr a => inr (Tensor a)
    end.
Proof.
  unfold downscale_local_mean.
  destruct image as [a|a]; cbn [contents]; unfold TF.session_run;
    rewrite ?bind_ret, ?bind_emit; unfold outcome; cbn [snd];
    destruct (block_reduce a factors TF.reduce_mean cval) as [log [e|r]];
    reflexivity.
Qed.

Lemma downscale_pad_outputs (image : value) (factors : list Z) (cval : Q) :
  outputs_of op_pad (trace (downscale_local_mean image factors cval))
  = outputs_of op_pad (trace (block_reduce (contents image) factors TF.reduce_mean cval)).
Proof.
  unfold downscale_local_mean.
  destruct image as [a|a]; cbn [contents]; unfold TF.session_run;
    rewrite ?bind_ret, ?bind_emit; unfold trace; cbn [fst];
    destruct (block_reduce a factors TF.reduce_mean cval) as [log [e|r]];
    cbn [bind fst snd]; unfold outputs_of;
    cbn; rewrite ?filter_app, ?map_app; cbn; now rewrite ?app_nil_r.
Qed.

Lemma extra_divisible (s : nat) (b : Z) : (Z.of_nat s mod b = 0)%Z -> extra s b = 0%Z.
Proof.
  intros H. unfold extra. rewrite H, Z.sub_0_r. apply Z_mod_same_full.
Qed.

(** No padding is added to an image made of whole blocks. *)
Lemma shape_padded_divisible (image : ndarray) (bs : list Z) (c : Q) :
  divisible image bs -> shape (padded image bs c) = shape image.
Proof.
  unfold divisible. rewrite shape_padded.
  induction 1 as [|s b sh bs' Hd _ IH]; simpl; [reflexivity|].
  rewrite IH, (extra_divisible _ _ Hd). simpl. f_equal. lia.
Qed.

End Laws.

(** ** Padding (C1, C8, C9) *)

(** C1.  Step 2 is expected to fill the new positions with [cval].  On the
    image [1..7] with block size [3] and [cval = 5], the array [tf.pad]
    produces is [1,2,3,4,5,6,7,0,0]: the shape (9) and the original
    elements are as expected, but the two new positions hold 0, not 5. *)
Theorem block_reduce_pad_ignores_cval :
  outputs_of op_pad (trace (block_reduce (image7 int64) [3%Z] TF.reduce_sum 5))
  = [array1 int64 [1; 2; 3; 4; 5; 6; 7; 0; 0]%Q].
Proof. reflexivity. Qed.

(** C8.  For every call that meets the preconditions, the pad widths the
    loop computes are [(0, extra)] per axis with
    [extra = (b - s mod b) mod b], and [(s + extra) mod b = 0] on every
    axis. *)
Theorem pad_width_law (image : ndarray) (block_size : list Z) :
  valid_call image block_size ->
  pad_width_loop image block_size
  = ([], inr (map (fun '(s, b) => (0, (b - Z.of_nat s mod b) mod b)%Z)
                (combine (shape image) block_size)))
  /\ Forall (fun '(s, b) => ((Z.of_nat s + (b - Z.of_nat s mod b) mod b) mod b = 0)%Z)
       (combine (shape image) block_size).
Proof.
  intros [Hlen Hbs]. split.
  - rewrite pad_width_loop_result by assumption.
    now rewrite (proj2 (forallb_ge1 _) Hbs).
  - apply Forall_forall. intros [s b] Hin.
    apply in_combine_r in Hin.
    rewrite Forall_forall in Hbs.
    exact (extra_divides s b (Hbs b Hin)).
Qed.

Lemma pad_width_law_witness :
  pad_width_loop image4x4 [3; 2]%Z = ([], inr [(0, 2); (0, 0)]%Z)
  /\ Forall (fun '(s, b) => ((Z.of_nat s + (b - Z.of_nat s mod b) mod b) mod b = 0)%Z)
       [(4, 3%Z); (4, 2%Z)].
Proof.
  apply (pad_width_law image4x4 [3; 2]%Z).
  split; [reflexivity | repeat constructor; lia].
Defined.

(** C9.  For an image made of whole blocks along every axis, no padding is
    added (the array [tf.pad] produces has the image's shape) and any two
    values of [cval] give the same run of [block_reduce] and of
    [downscale_local_mean]. *)
Theorem padding_value_law (image : ndarray) (block_size : list Z)
    (func : TF.reducer) (c1 c2 : Q) :
  divisible image block_size ->
  (forall p, In p (outputs_of op_pad (trace (block_reduce image block_size func c1))) ->
             shape p = shape image)
  /\ block_reduce image block_size func c1 = block_reduce image block_size func c2
  /\ downscale_local_mean (Ndarray image) block_size c1
     = downscale_local_mean (Ndarray image) block_size c2
  /\ downscale_local_mean (Tensor image) block_size c1
     = downscale_local_mean (Tensor image) block_size c2.
Proof.
  intros Hd. split; [|repeat split; reflexivity].
  intros p Hp.
  destruct (valid_call_dec image block_size) as [[Hv|Hr]|[Hl Hb]].
  - destruct (Nat.eq_dec (ndim image) 0) as [H0|H0].
    + destruct Hv as [Hlen _]. rewrite H0 in Hlen.
      apply length_zero_iff_nil in Hlen. subst block_size.
      rewrite block_reduce_rank0 in Hp by assumption. destruct Hp.
    + rewrite block_reduce_pads_with_zero in Hp by (assumption || lia).
      destruct Hp as [<-|[]]. now apply shape_padded_divisible.
  - rewrite block_reduce_rank_mismatch in Hp by assumption. destruct Hp.
  - rewrite block_reduce_invalid_block_size in Hp by assumption. destruct Hp.
Qed.

Lemma padding_value_law_witness :
  (forall p, In p (outputs_of op_pad (trace (block_reduce image4x4 [2; 2]%Z TF.reduce_mean 0))) ->
             shape p = [4; 4])
  /\ block_reduce image4x4 [2; 2]%Z TF.reduce_mean 0
     = block_reduce image4x4 [2; 2]%Z TF.reduce_mean 9
  /\ downscale_local_mean (Ndarray image4x4) [2; 2]%Z 0
     = downscale_local_mean (Ndarray image4x4) [2; 2]%Z 9
  /\ downscale_local_mean (Tensor image4x4) [2; 2]%Z 0
     = downscale_local_mean (Tensor image4x4) [2; 2]%Z 9.
Proof.
  apply (padding_value_law image4x4 [2; 2]%Z TF.reduce_mean 0 9).
  repeat constructor.
Defined.

(** ** Validation (C2, C6, C7) *)

(** C6.  When the block-size vector and the image differ in rank, the call
    fails with RankMismatch; no array operation has been performed and
    there is no output. *)
Theorem rank_mismatch_law (image : ndarray) (block_size : list Z)
    (func : TF.reducer) (cval : Q) :
  length block_size <> ndim image ->
  block_reduce image block_size func cval = ([], inl RankMismatch).
Proof. apply block_reduce_rank_mismatch. Qed.

Lemma rank_mismatch_law_witness :
  length [2; 2]%Z <> ndim (image7 int64)
  /\ block_reduce (image7 int64) [2; 2]%Z TF.reduce_sum 0 = ([], inl RankMismatch).
Proof.
  assert (H : length [2; 2]%Z <> ndim (image7 int64)) by (vm_compute; lia).
  split; [exact H | exact (rank_mismatch_law _ _ TF.reduce_sum 0%Q H)].
Defined.

(** C7, as stated, fails twice.  A block-size vector with a component
    below 1 whose length differs from the image's rank is rejected with
    RankMismatch, not InvalidBlockSize.  And with block sizes [3, 0] on a
    4x4 image the loop has computed the pad width (0, 2) of axis 0 when
    it rejects axis 1: the rejection does not precede all computation of
    padding. *)
Lemma invalid_block_size_behind_rank_mismatch :
  (Exists (fun b => (b < 1)%Z) [0; 2]%Z
   /\ outcome (block_reduce (image7 int64) [0; 2]%Z TF.reduce_sum 0) = inl RankMismatch
   /\ outcome (block_reduce (image7 int64) [0; 2]%Z TF.reduce_sum 0)
      <> inl InvalidBlockSize)
  /\ (pad_width_step image4x4 [3; 0]%Z [] 0 = ([], inr [(0, 2)%Z])
      /\ pad_width_step image4x4 [3; 0]%Z [(0, 2)%Z] 1 = ([], inl InvalidBlockSize)).
Proof.
  split.
  - split; [left; lia|]. split; [reflexivity | discriminate].
  - split; reflexivity.
Qed.

(** C7, amended.  When the block-size vector has the image's rank and a
    component below 1, the call fails with InvalidBlockSize and no output,
    before the image is padded: the log of the run is empty, [tf.pad] has
    not been called.  By then the loop has computed the pad widths of the
    axes before the first component below 1, [k] of them, and no other;
    it raises at axis [k]. *)
Theorem rejection_law (image : ndarray) (block_size : list Z)
    (func : TF.reducer) (cval : Q) :
  length block_size = ndim image ->
  Exists (fun b => (b < 1)%Z) block_size ->
  block_reduce image block_size func cval = ([], inl InvalidBlockSize)
  /\ exists k b,
       nth_error block_size k = Some b /\ (b < 1)%Z
       /\ Forall (fun b => (1 <= b)%Z) (firstn k block_size)
       /\ let computed := pad_widths (firstn k (shape image)) (firstn k block_size) in
          length computed = k
          /\ for_each (seq 0 k) (pad_width_step image block_size) [] = ([], inr computed)
          /\ pad_width_step image block_size computed k = ([], inl InvalidBlockSize).
Proof.
  intros Hlen Hex. split.
  - apply block_reduce_invalid_block_size; [assumption|].
    intros Hall. apply Exists_exists in Hex. destruct Hex as (b & Hin & Hb).
    rewrite Forall_forall in Hall. specialize (Hall b Hin). lia.
  - destruct (first_invalid _ Hex) as (bsA & b & bsB & -> & HA & Hb).
    exists (length bsA), b.
    destruct image as [dt sh d]. unfold ndim in Hlen; cbn [shape] in *.
    rewrite length_app in Hlen. cbn [length] in Hlen.
    assert (Hsh : sh = firstn (length bsA) sh ++ skipn (length bsA) sh)
      by (symmetry; apply firstn_skipn).
    set (shA := firstn (length bsA) sh) in *.
    set (shB := skipn (length bsA) sh) in *.
    assert (HshA : length shA = length bsA)
      by (unfold shA; rewrite length_firstn; lia).
    rewrite firstn_app, Nat.sub_diag, firstn_all. cbn [firstn]. rewrite app_nil_r.
    split; [rewrite nth_error_app2, Nat.sub_diag by lia; reflexivity|].
    split; [assumption|]. split; [assumption|]. cbv zeta.
    split; [now rewrite length_pad_widths|]. split.
    + rewrite Hsh.
      exact (pad_width_loop_prefix dt d [] shA shB [] bsA (b :: bsB) []
               eq_refl HshA HA).
    + unfold pad_width_step.
      rewrite (index_nth_error _ _ b), bind_ret
        by (rewrite nth_error_app2, Nat.sub_diag by lia; reflexivity).
      destruct (Z.ltb_spec b 1); [reflexivity | lia].
Qed.

Lemma rejection_law_witness :
  block_reduce image4x4 [3; 0]%Z TF.reduce_mean 0 = ([], inl InvalidBlockSize)
  /\ exists k b,
       nth_error [3; 0]%Z k = Some b /\ (b < 1)%Z
       /\ Forall (fun b => (1 <= b)%Z) (firstn k [3; 0]%Z)
       /\ let computed := pad_widths (firstn k (shape image4x4)) (firstn k [3; 0]%Z) in
          length computed = k
          /\ for_each (seq 0 k) (pad_width_step image4x4 [3; 0]%Z) [] = ([], inr computed)
          /\ pad_width_step image4x4 [3; 0]%Z computed k = ([], inl InvalidBlockSize).
Proof.
  apply (rejection_law image4x4 [3; 0]%Z TF.reduce_mean 0).
  - reflexivity.
  - right. left. lia.
Defined.

(** C2, as stated, fails: the rank-0 array holding 5, with the empty
    block-size vector, meets both preconditions; the loop leaves
    [pad_width] empty and [tf.pad] refuses it.  The call raises an error
    that is neither of the two validation errors, after
    [tf.convert_to_tensor] has been applied to the image. *)
Lemma rank0_call_fails_in_pad :
  valid_call scalar5 []
  /\ block_reduce scalar5 [] TF.reduce_sum 0
     = ([Ev op_convert_to_tensor scalar5], inl TFShapeError)
  /\ TFShapeError <> RankMismatch /\ TFShapeError <> InvalidBlockSize.
Proof.
  split; [split; [reflexivity | constructor]|].
  split; [reflexivity|]. split; discriminate.
Qed.

(** C2, amended.  For an image of rank 1 or more: a call that meets both
    preconditions raises nothing and returns an array; and whenever a call
    fails, the exception is one of the two validation errors and the log
    of the run is empty, no array operation having been performed. *)
Theorem block_reduce_fails_only_on_validation (image : ndarray) (block_size : list Z)
    (func : TF.reducer) (cval : Q) :
  1 <= ndim image ->
  (valid_call image block_size ->
   exists out, outcome (block_reduce image block_size func cval) = inr out)
  /\ (forall e, outcome (block_reduce image block_size func cval) = inl e ->
                (e = RankMismatch \/ e = InvalidBlockSize)
                /\ trace (block_reduce image block_size func cval) = []).
Proof.
  intros Hrank. split.
  - intros Hv. exists (run_result image block_size func).
    now rewrite block_reduce_run.
  - intros e He.
    destruct (valid_call_dec image block_size) as [[Hv|Hr]|[Hl Hb]].
    + rewrite block_reduce_run in He by assumption. discriminate.
    + rewrite block_reduce_rank_mismatch in * by assumption.
      injection He as <-. auto.
    + rewrite block_reduce_invalid_block_size in * by assumption.
      injection He as <-. auto.
Qed.

Lemma block_reduce_fails_only_on_validation_witness :
  (exists out, outcome (block_reduce image4x4 [3; 2]%Z TF.reduce_sum 1) = inr out)
  /\ ((InvalidBlockSize = RankMismatch \/ InvalidBlockSize = InvalidBlockSize)
      /\ trace (block_reduce image4x4 [3; 0]%Z TF.reduce_sum 1) = []).
Proof.
  assert (Hrank : 1 <= ndim image4x4) by (vm_compute; lia).
  split.
  - apply (block_reduce_fails_only_on_validation image4x4 [3; 2]%Z TF.reduce_sum 1 Hrank).
    split; [reflexivity | repeat constructor; lia].
  - apply (block_reduce_fails_only_on_validation image4x4 [3; 0]%Z TF.reduce_sum 1 Hrank).
    reflexivity.
Defined.

(** ** Results (C3, C4, C5, C10) *)

(** C3, as stated, fails at rank D = 0: for the rank-0 array holding 5 and
    the empty block-size vector (length 0, no component below 1),
    [block_reduce] returns no array. *)
Lemma shape_law_fails_at_rank0 :
  ndim scalar5 = 0 /\ length ([] : list Z) = 0
  /\ Forall (fun b => (1 <= b)%Z) []
  /\ reduces_axes TF.reduce_sum
  /\ forall out, outcome (block_reduce scalar5 [] TF.reduce_sum 0) <> inr out.
Proof.
  split; [reflexivity|]. split; [reflexivity|]. split; [constructor|].
  split; [intros x axes; reflexivity|]. intros out. discriminate.
Qed.

(** C3, amended.  For an image of rank D >= 1 and a block-size vector of
    length D with all components at least 1, [block_reduce] (with a
    reduction that removes exactly the axes it is given) returns an array
    of rank D whose extent along every axis is
    ceil(shape[axis] / blockSize[axis]). *)
Theorem shape_law (image : ndarray) (block_size : list Z) (func : TF.reducer) (cval : Q) :
  1 <= ndim image ->
  valid_call image block_size ->
  reduces_axes func ->
  exists out,
    outcome (block_reduce image block_size func cval) = inr out
    /\ ndim out = ndim image
    /\ forall axis s b,
         nth_error (shape image) axis = Some s ->
         nth_error block_size axis = Some b ->
         nth_error (shape out) axis
         = Some (Z.to_nat (Qceiling (inject_Z (Z.of_nat s) / inject_Z b))).
Proof.
  intros Hrank Hv Hf. exists (run_result image block_size func).
  rewrite block_reduce_run by assumption.
  pose proof (shape_run_result image block_size func Hv Hf) as Hs.
  split; [reflexivity|]. split.
  - unfold ndim. rewrite Hs, length_map, length_combine.
    destruct Hv as [Hlen _]. unfold ndim in Hlen. lia.
  - intros axis s b H1 H2. rewrite Hs.
    exact (nth_error_map_combine (fun '(s, b) => ceil_div s b) _ _ _ _ _ H1 H2).
Qed.

Lemma shape_law_witness :
  exists out,
    outcome (block_reduce image4x4 [3; 2]%Z TF.reduce_sum 0) = inr out
    /\ ndim out = 2
    /\ forall axis s b,
         nth_error [4; 4] axis = Some s ->
         nth_error [3; 2]%Z axis = Some b ->
         nth_error (shape out) axis
         = Some (Z.to_nat (Qceiling (inject_Z (Z.of_nat s) / inject_Z b))).
Proof.
  apply (shape_law image4x4 [3; 2]%Z TF.reduce_sum 0).
  - vm_compute. lia.
  - split; [reflexivity | repeat constructor; lia].
  - intros x axes. reflexivity.
Defined.

(** C4.  On the 1-D image [1,2,3,4,5,6,7] with block size [3] and
    [cval = 0], [downscale_local_mean] pads to [1,2,3,4,5,6,7,0,0]
    (length 9), forms the blocks [1,2,3], [4,5,6], [7,0,0] and returns
    [2, 5, 7/3]. *)
Theorem downscale_local_mean_example (dt : dtype) :
  let run := downscale_local_mean (Ndarray (image7 dt)) [3%Z] 0 in
  exists blocked out,
    outputs_of op_pad (trace run) = [array1 dt [1; 2; 3; 4; 5; 6; 7; 0; 0]%Q]
    /\ outputs_of op_view_as_blocks (trace run) = [blocked]
    /\ shape blocked = [3; 3]
    /\ map (fun b => map (fun s => get blocked [b; s]) [0; 1; 2]) [0; 1; 2]
       = [[1; 2; 3]; [4; 5; 6]; [7; 0; 0]]%Q
    /\ outcome run = inr (Tensor out)
    /\ dtype_of out = float64
    /\ shape out = [3]
    /\ Forall2 Qeq (data out) [2; 5; 7 # 3]%Q.
Proof.
  destruct dt; cbv zeta;
    (eexists; eexists; split; [reflexivity|]; split; [reflexivity|];
     split; [reflexivity|];
     split; [reflexivity|]; split; [reflexivity|];
     split; [reflexivity|]; split; [reflexivity|];
     repeat constructor).
Qed.

(** C5.  [downscale_local_mean] is expected to average each block over
    all its elements, the padding elements holding [cval].  On the image
    [1..7] with factors [3] and [cval = 5] it returns [2, 5, 7/3]: the
    last block is averaged as [7, 0, 0].  With the padding holding 5, as
    section 4.3 has it, the last element is 17/3. *)
Theorem downscale_local_mean_pads_with_zero :
  exists out,
    outcome (downscale_local_mean (Ndarray (image7 int64)) [3%Z] 5) = inr (Tensor out)
    /\ Forall2 Qeq (data out) [2; 5; 7 # 3]%Q
    /\ Forall2 Qeq (data (downscale_spec (image7 int64) [3%Z] 5)) [2; 5; 17 # 3]%Q
    /\ ~ (7 # 3 == 17 # 3)%Q.
Proof.
  eexists. split; [reflexivity|].
  split; [repeat constructor|]. split; [repeat constructor | discriminate].
Qed.

(** C10, as stated, fails twice.  [tf.math.count_nonzero] removes exactly
    the axes it is given and returns an int64 tensor, so [block_reduce]
    with that reduction returns an int64 array.  And for the rank-0 array
    holding 5 with the empty block-size vector, [block_reduce] stops in
    [tf.pad]: nothing is cast and nothing is returned. *)
Lemma count_nonzero_result_is_int64 :
  (reduces_axes TF.count_nonzero
   /\ exists out,
        outcome (block_reduce (image7 int32) [3%Z] TF.count_nonzero 0) = inr out
        /\ data out = [3; 3; 1]%Q
        /\ dtype_of out = int64
        /\ dtype_of out <> float64)
  /\ (valid_call scalar5 []
      /\ outputs_of op_cast (trace (block_reduce scalar5 [] TF.reduce_sum 0)) = []
      /\ outcome (block_reduce scalar5 [] TF.reduce_sum 0) = inl TFShapeError).
Proof.
  split.
  - split; [intros x axes; reflexivity|].
    eexists. split; [reflexivity|]. split; [reflexivity|].
    split; [reflexivity | discriminate].
  - split; [split; [reflexivity | constructor]|]. split; reflexivity.
Qed.

(** C10, amended.  For every call that meets the preconditions on an
    image of rank 1 or more, and every [func], [block_reduce] casts the
    blocked view to float64 before it applies [func]: [func] receives a
    float64 array whatever the element type of the image, and what
    [block_reduce] returns is what [func] returns; its element type is
    float64 when [func] keeps the element type of its argument, as
    [tf.reduce_sum], [tf.reduce_min] and [tf.reduce_mean] do. *)
Theorem block_reduce_casts_before_func (image : ndarray) (block_size : list Z)
    (func : TF.reducer) (cval : Q) :
  1 <= ndim image ->
  valid_call image block_size ->
  exists blocked before between after,
    dtype_of blocked = float64
    /\ trace (block_reduce image block_size func cval)
       = before ++ Ev op_cast blocked
                :: between ++ Ev op_func (func blocked (seq (ndim image) (ndim image)))
                :: after
    /\ outcome (block_reduce image block_size func cval)
       = inr (func blocked (seq (ndim image) (ndim image)))
    /\ (keeps_dtype func ->
        dtype_of (func blocked (seq (ndim image) (ndim image))) = float64).
Proof.
  intros Hrank Hv. rewrite block_reduce_run by assumption.
  set (p := padded image block_size 0).
  exists (as_float64 (block_view p block_size)).
  exists [Ev op_convert_to_tensor image; Ev op_pad p;
          Ev op_view_as_blocks (block_view p block_size)].
  exists [Ev op_run p; Ev op_run (as_float64 (block_view p block_size))].
  exists [Ev op_run (run_result image block_size func)].
  split; [reflexivity|]. split; [reflexivity|]. split; [reflexivity|].
  intros Hk. now rewrite Hk.
Qed.

Lemma block_reduce_casts_before_func_witness :
  exists blocked before between after,
    dtype_of blocked = float64
    /\ trace (block_reduce (image7 int32) [3%Z] TF.reduce_min 0)
       = before ++ Ev op_cast blocked
                :: between ++ Ev op_func (TF.reduce_min blocked [1]) :: after
    /\ outcome (block_reduce (image7 int32) [3%Z] TF.reduce_min 0)
       = inr (TF.reduce_min blocked [1])
    /\ (keeps_dtype TF.reduce_min -> dtype_of (TF.reduce_min blocked [1]) = float64).
Proof.
  apply (block_reduce_casts_before_func (image7 int32) [3%Z] TF.reduce_min 0).
  - vm_compute. lia.
  - split; [reflexivity | repeat constructor; lia].
Defined.

(** ** Further properties of [block_reduce] and [downscale_local_mean] *)

Section MoreFacts.

Lemma nth_error_combine {A B} (l1 : list A) (l2 : list B) (i : nat) (a : A) (b : B) :
  nth_error l1 i = Some a -> nth_error l2 i = Some b ->
  nth_error (combine l1 l2) i = Some (a, b).
Proof.
  revert l2 i; induction l1 as [|x l1 IH]; intros [|y l2] [|i] H1 H2;
    try discriminate; simpl in *.
  - congruence.
  - now apply IH.
Qed.

Lemma extra_zero_iff (s : nat) (b : Z) :
  (1 <= b)%Z -> (extra s b = 0 <-> Z.of_nat s mod b = 0)%Z.
Proof.
  intros Hb. split; [|apply extra_divisible].
  unfold extra. intros H.
  pose proof (Z.mod_pos_bound (Z.of_nat s) b ltac:(lia)) as Hm.
  destruct (Z.eq_dec (Z.of_nat s mod b) 0) as [E|E]; [assumption|].
  rewrite Z.mod_small in H by lia. lia.
Qed.

(** A failed validation, seen from [downscale_local_mean]. *)
Lemma downscale_failure (a : ndarray) (factors : list Z) (cval : Q) (e : exn) :
  block_reduce a factors TF.reduce_mean cval = ([], inl e) ->
  downscale_local_mean (Ndarray a) factors cval = ([], inl e)
  /\ downscale_local_mean (Tensor a) factors cval = ([Ev op_run a], inl e).
Proof.
  intros H. unfold downscale_local_mean, TF.session_run.
  rewrite bind_ret, bind_emit.
  unfold trace, outcome. now rewrite H.
Qed.

Lemma well_formed_run_result (agg : dtype -> list Q -> Q) (image : ndarray) (bs : list Z) :
  valid_call image bs -> well_formed (run_result image bs (TF.reduce_with agg)).
Proof.
  intros Hv. rewrite run_result_reduce_with by assumption.
  apply tabulate_well_formed.
Qed.

End MoreFacts.

(** X1.  In every run of [block_reduce] that passes validation, on an
    image of rank 1 or more, the array [tf.pad] produces keeps the element
    type, is [extra] longer than the image at the end of each axis, holds
    the image's elements at their positions and holds 0 at every new
    position, whatever [cval]. *)
Theorem block_reduce_zero_padding (image : ndarray) (block_size : list Z)
    (func : TF.reducer) (cval : Q) :
  1 <= ndim image ->
  valid_call image block_size ->
  exists p,
    outputs_of op_pad (trace (block_reduce image block_size func cval)) = [p]
    /\ dtype_of p = dtype_of image
    /\ (forall axis s b,
          nth_error (shape image) axis = Some s ->
          nth_error block_size axis = Some b ->
          nth_error (shape p) axis
          = Some (s + Z.to_nat ((b - Z.of_nat s mod b) mod b)))
    /\ (forall idx, in_bounds (shape image) idx -> get p idx = get image idx)
    /\ (forall idx, in_bounds (shape p) idx -> ~ in_bounds (shape image) idx ->
                    get p idx = 0%Q).
Proof.
  intros Hrank Hv. exists (padded image block_size 0).
  split; [now apply block_reduce_pads_with_zero|].
  split; [reflexivity|]. split; [|split].
  - intros axis s b H1 H2. rewrite shape_padded.
    exact (nth_error_map_combine
             (fun '(s, b) => s + Z.to_nat (extra s b)) _ _ _ _ _ H1 H2).
  - intros idx Hidx. now apply padded_inside.
  - intros idx Hidx Hout. now apply padded_outside.
Qed.

Lemma block_reduce_zero_padding_witness :
  exists p,
    outputs_of op_pad (trace (block_reduce image4x4 [3; 2]%Z TF.reduce_sum 7)) = [p]
    /\ dtype_of p = float32
    /\ (forall axis s b,
          nth_error [4; 4] axis = Some s ->
          nth_error [3; 2]%Z axis = Some b ->
          nth_error (shape p) axis
          = Some (s + Z.to_nat ((b - Z.of_nat s mod b) mod b)))
    /\ (forall idx, in_bounds [4; 4] idx -> get p idx = get image4x4 idx)
    /\ (forall idx, in_bounds (shape p) idx -> ~ in_bounds [4; 4] idx ->
                    get p idx = 0%Q).
Proof.
  apply (block_reduce_zero_padding image4x4 [3; 2]%Z TF.reduce_sum 7).
  - vm_compute. lia.
  - split; [reflexivity | repeat constructor; lia].
Defined.

(** X2.  For a call that passes validation the loop yields one pair per
    axis; each pair is [(0, w)] with [0 <= w < block_size[axis]], and
    [w = 0] exactly when the block size divides the extent: nothing is
    ever added in front of an axis, and never a whole block behind it. *)
Theorem pad_width_bounds (image : ndarray) (block_size : list Z) :
  valid_call image block_size ->
  exists pad_width,
    pad_width_loop image block_size = ([], inr pad_width)
    /\ length pad_width = ndim image
    /\ forall axis s b,
         nth_error (shape image) axis = Some s ->
         nth_error block_size axis = Some b ->
         exists w,
           nth_error pad_width axis = Some (0, w)%Z
           /\ (0 <= w < b)%Z
           /\ (w = 0 <-> Z.of_nat s mod b = 0)%Z.
Proof.
  intros [Hlen Hbs]. exists (pad_widths (shape image) block_size).
  split; [|split].
  - rewrite pad_width_loop_result by assumption.
    now rewrite (proj2 (forallb_ge1 _) Hbs).
  - now apply length_pad_widths.
  - intros axis s b H1 H2. exists (extra s b).
    assert (Hb : (1 <= b)%Z).
    { rewrite Forall_forall in Hbs. apply Hbs. eapply nth_error_In; eauto. }
    split; [|split].
    + exact (nth_error_map_combine (fun '(s, b) => (0%Z, extra s b)) _ _ _ _ _ H1 H2).
    + now apply extra_bounds.
    + now apply extra_zero_iff.
Qed.

Lemma pad_width_bounds_witness :
  exists pad_width,
    pad_width_loop image4x4 [3; 2]%Z = ([], inr pad_width)
    /\ length pad_width = 2
    /\ forall axis s b,
         nth_error [4; 4] axis = Some s ->
         nth_error [3; 2]%Z axis = Some b ->
         exists w,
           nth_error pad_width axis = Some (0, w)%Z
           /\ (0 <= w < b)%Z
           /\ (w = 0 <-> Z.of_nat s mod b = 0)%Z.
Proof.
  apply (pad_width_bounds image4x4 [3; 2]%Z).
  split; [reflexivity | repeat constructor; lia].
Defined.

(** X3.  When the arguments fail validation, [downscale_local_mean] raises
    the exception of [block_reduce]; given an ndarray it has performed no
    array operation by then, given a tensor it has already evaluated it
    with [session.run]. *)
Theorem downscale_local_mean_rejects (a : ndarray) (factors : list Z) (cval : Q) :
  ~ valid_call a factors ->
  exists e,
    (e = RankMismatch \/ e = InvalidBlockSize)
    /\ (e = RankMismatch <-> length factors <> ndim a)
    /\ downscale_local_mean (Ndarray a) factors cval = ([], inl e)
    /\ downscale_local_mean (Tensor a) factors cval = ([Ev op_run a], inl e).
Proof.
  intros Hn.
  destruct (valid_call_dec a factors) as [[Hv|Hr]|[Hl Hb]]; [contradiction| |].
  - exists RankMismatch. split; [now left|]. split; [tauto|].
    apply downscale_failure. now apply block_reduce_rank_mismatch.
  - exists InvalidBlockSize. split; [now right|]. split.
    + split; [discriminate | intros H; contradiction].
    + apply downscale_failure. now apply block_reduce_invalid_block_size.
Qed.

Lemma downscale_local_mean_rejects_witness :
  exists e,
    (e = RankMismatch \/ e = InvalidBlockSize)
    /\ (e = RankMismatch <-> length [3; 0]%Z <> ndim image4x4)
    /\ downscale_local_mean (Ndarray image4x4) [3; 0]%Z 0 = ([], inl e)
    /\ downscale_local_mean (Tensor image4x4) [3; 0]%Z 0 = ([Ev op_run image4x4], inl e).
Proof.
  apply (downscale_local_mean_rejects image4x4 [3; 0]%Z 0).
  intros [_ H]. apply Forall_inv_tail, Forall_inv in H. lia.
Defined.

(** X4.  For an image of rank 1 or more and arguments that pass
    validation, [downscale_local_mean] returns a tensor, never an ndarray;
    it is float64 whatever the element type of the image, has the image's
    number of dimensions, extent ceil(shape[axis] / factors[axis]) along
    every axis, and a buffer of exactly as many elements as its shape
    says. *)
Theorem downscale_local_mean_returns_tensor (image : value) (factors : list Z) (cval : Q) :
  1 <= ndim (contents image) ->
  valid_call (contents image) factors ->
  exists t,
    outcome (downscale_local_mean image factors cval) = inr (Tensor t)
    /\ dtype_of t = float64
    /\ ndim t = ndim (contents image)
    /\ well_formed t
    /\ forall axis s b,
         nth_error (shape (contents image)) axis = Some s ->
         nth_error factors axis = Some b ->
         nth_error (shape t) axis
         = Some (Z.to_nat (Qceiling (inject_Z (Z.of_nat s) / inject_Z b))).
Proof.
  intros Hrank Hv. exists (run_result (contents image) factors TF.reduce_mean).
  pose proof (shape_run_result _ _ TF.reduce_mean Hv
                (reduce_with_reduces_axes TF.mean_of)) as Hs.
  split; [|split; [|split; [|split]]].
  - rewrite downscale_outcome, block_reduce_run by assumption. reflexivity.
  - reflexivity.
  - unfold ndim. rewrite Hs, length_map, length_combine.
    destruct Hv as [Hlen _]. unfold ndim in Hlen. lia.
  - now apply well_formed_run_result.
  - intros axis s b H1 H2. rewrite Hs.
    exact (nth_error_map_combine (fun '(s, b) => ceil_div s b) _ _ _ _ _ H1 H2).
Qed.

Lemma downscale_local_mean_returns_tensor_witness :
  exists t,
    outcome (downscale_local_mean (Tensor (image7 int32)) [3%Z] 4) = inr (Tensor t)
    /\ dtype_of t = float64
    /\ ndim t = 1
    /\ well_formed t
    /\ forall axis s b,
         nth_error [7] axis = Some s ->
         nth_error [3%Z] axis = Some b ->
         nth_error (shape t) axis
         = Some (Z.to_nat (Qceiling (inject_Z (Z.of_nat s) / inject_Z b))).
Proof.
  apply (downscale_local_mean_returns_tensor (Tensor (image7 int32)) [3%Z] 4).
  - vm_compute. lia.
  - split; [reflexivity | repeat constructor; lia].
Defined.

(** ** Block elements, seen from the image *)

Section Blocks.

Lemma get_run_result_reduce_with (agg : dtype -> list Q -> Q) (image : ndarray)
    (bs : list Z) (b : list nat) :
  valid_call image bs ->
  in_bounds (block_counts (shape (padded image bs 0)) bs) b ->
  get (run_result image bs (TF.reduce_with agg)) b
  = agg float64 (block_elements (as_float64 (padded image bs 0)) bs b).
Proof.
  intros Hv Hb. rewrite run_result_reduce_with by assumption.
  now rewrite get_tabulate.
Qed.

Lemma shape_run_result_reduce_with (agg : dtype -> list Q -> Q) (image : ndarray)
    (bs : list Z) :
  valid_call image bs ->
  shape (run_result image bs (TF.reduce_with agg))
  = block_counts (shape (padded image bs 0)) bs.
Proof. intros Hv. now rewrite run_result_reduce_with. Qed.

Lemma get_padded (image : ndarray) (bs : list Z) (c : Q) (idx : list nat) :
  in_bounds (shape (padded image bs c)) idx ->
  get (padded image bs c) idx
  = if in_boundsb (shape image) idx then get image idx else c.
Proof. intros H. unfold padded in *. now rewrite get_tabulate. Qed.

(** In an array made of whole blocks, every position of every block is a
    position of the array. *)
Lemma block_index_in_bounds (sh : list nat) (bs : list Z) (b s : list nat) :
  blocks_fit sh bs = true ->
  in_bounds (block_counts sh bs) b -> in_bounds (map Z.to_nat bs) s ->
  in_bounds sh (block_index bs b s).
Proof.
  unfold blocks_fit. rewrite andb_true_iff, Nat.eqb_eq. intros [Hlen Hfit].
  revert bs b s Hlen Hfit.
  induction sh as [|n sh IH]; intros [|b0 bs] b s Hlen Hfit Hb Hs; try discriminate.
  - rewrite (in_bounds_nil_inv _ Hb). reflexivity.
  - simpl in Hfit. rewrite !andb_true_iff in Hfit.
    destruct Hfit as [[H1 Hm] Hfit].
    apply Z.leb_le in H1. apply Z.eqb_eq in Hm.
    unfold block_counts in Hb; cbn [combine map] in Hb. cbn [map] in Hs.
    destruct (in_bounds_cons_inv _ _ _ Hb) as (bi & b' & -> & Hbi & Hb').
    destruct (in_bounds_cons_inv _ _ _ Hs) as (si & s' & -> & Hsi & Hs').
    unfold block_index; cbn [combine map].
    apply in_bounds_cons.
    + apply Z.div_exact in Hm; [|lia].
      assert (Hq : (0 <= Z.of_nat n / b0)%Z) by (apply Z.div_pos; lia).
      assert (Hn : n = Z.to_nat (Z.of_nat n / b0) * Z.to_nat b0).
      { apply Nat2Z.inj. rewrite Nat2Z.inj_mul, !Z2Nat.id by lia. lia. }
      rewrite Hn at 1. nia.
    + apply (IH bs b' s'); auto.
Qed.

(** The elements of a block of the padded array, once converted: those
    of the converted image where the block lies inside it, zeros
    elsewhere. *)
Lemma block_elements_padded (image : ndarray) (bs : list Z) (b : list nat) :
  valid_call image bs ->
  in_bounds (block_counts (shape (padded image bs 0)) bs) b ->
  block_elements (as_float64 (padded image bs 0)) bs b
  = map (fun idx => if in_boundsb (shape image) idx
                    then get (as_float64 image) idx else 0%Q)
      (map (block_index bs b) (indices (map Z.to_nat bs))).
Proof.
  intros Hv Hb. unfold block_elements. rewrite map_map.
  apply map_ext_in. intros s Hs. apply in_indices in Hs.
  rewrite get_as_float64, get_padded
    by (apply block_index_in_bounds; auto; now apply blocks_fit_padded).
  change (dtype_of (padded image bs 0)) with (dtype_of image).
  destruct (in_boundsb (shape image) (block_index bs b s)).
  - now rewrite get_as_float64.
  - apply to_float64_zero.
Qed.

Lemma Qsum_filter {A} (t : A -> bool) (g : A -> Q) (l : list A) :
  TF.Qsum (map (fun x => if t x then g x else 0%Q) l) == TF.Qsum (map g (filter t l)).
Proof.
  induction l as [|x l IH]; simpl; [reflexivity|].
  destruct (t x); simpl; rewrite IH; ring.
Qed.

(** For an image made of whole blocks the padded array is the image, as
    far as blocks go. *)
Lemma run_result_divisible (agg : dtype -> list Q -> Q) (image : ndarray) (bs : list Z) :
  valid_call image bs -> divisible image bs ->
  run_result image bs (TF.reduce_with agg)
  = tabulate float64 (block_counts (shape image) bs)
      (fun b => agg float64 (block_elements (as_float64 image) bs b)).
Proof.
  intros Hv Hd. rewrite run_result_reduce_with by assumption.
  pose proof (shape_padded_divisible image bs 0 Hd) as Hsh.
  rewrite Hsh. apply tabulate_ext. intros b Hb. f_equal.
  unfold block_elements. apply map_ext_in. intros s Hs. apply in_indices in Hs.
  rewrite !get_as_float64.
  change (dtype_of (padded image bs 0)) with (dtype_of image). f_equal.
  apply padded_inside; [assumption|].
  apply block_index_in_bounds; auto.
  rewrite <- Hsh. now apply blocks_fit_padded.
Qed.

Lemma all_ones_to_nat (bs : list Z) :
  Forall (fun b => b = 1%Z) bs -> map Z.to_nat bs = repeat 1 (length bs).
Proof. induction 1 as [|b bs -> _ IH]; simpl; [reflexivity | now rewrite IH]. Qed.

Lemma indices_ones (n : nat) : indices (repeat 1 n) = [repeat 0 n].
Proof. induction n as [|n IH]; simpl; [reflexivity | now rewrite IH]. Qed.

Lemma block_index_ones (bs : list Z) (b : list nat) :
  Forall (fun b => b = 1%Z) bs -> length b = length bs ->
  block_index bs b (repeat 0 (length bs)) = b.
Proof.
  intros H. revert b. unfold block_index.
  induction H as [|b0 bs -> _ IH]; intros [|bi b] Hl; try discriminate; simpl.
  - reflexivity.
  - rewrite IH by (simpl in Hl; lia). f_equal. lia.
Qed.

Lemma block_counts_ones (sh : list nat) (bs : list Z) :
  Forall (fun b => b = 1%Z) bs -> length bs = length sh -> block_counts sh bs = sh.
Proof.
  intros H. revert sh. unfold block_counts.
  induction H as [|b0 bs -> _ IH]; intros [|n sh] Hl; try discriminate; simpl.
  - reflexivity.
  - rewrite IH by (simpl in Hl; lia). now rewrite Z.div_1_r, Nat2Z.id.
Qed.

Lemma all_ones_valid (image : ndarray) (bs : list Z) :
  Forall (fun b => b = 1%Z) bs -> length bs = ndim image ->
  valid_call image bs /\ divisible image bs.
Proof.
  intros H Hl. split.
  - split; [assumption|]. eapply Forall_impl; [|exact H]. simpl. lia.
  - unfold divisible, ndim in *. revert H Hl. generalize (shape image) as sh.
    intros sh H. revert sh.
    induction H as [|b0 bs -> _ IH]; intros [|n sh] Hl; try discriminate;
      constructor.
    + apply Z.mod_1_r.
    + apply IH. simpl in Hl. lia.
Qed.

(** With blocks of a single element, every block holds just the image's
    element at the block's index. *)
Lemma block_elements_ones (image : ndarray) (bs : list Z) (b : list nat) :
  Forall (fun b => b = 1%Z) bs -> length b = length bs ->
  block_elements image bs b = [get image b].
Proof.
  intros H Hl. unfold block_elements.
  rewrite all_ones_to_nat, indices_ones by assumption. simpl.
  now rewrite block_index_ones.
Qed.

End Blocks.

(** X6.  With every block size equal to 1, on an image of rank 1 or more,
    [downscale_local_mean] and [block_reduce] with the sum return the
    image converted to float64: same shape and, at every position, the
    value the conversion gives. *)
Theorem unit_blocks_identity (image : ndarray) (block_size : list Z) (cval : Q) :
  1 <= ndim image ->
  length block_size = ndim image ->
  Forall (fun b => b = 1%Z) block_size ->
  exists m s,
    outcome (downscale_local_mean (Ndarray image) block_size cval) = inr (Tensor m)
    /\ outcome (block_reduce image block_size TF.reduce_sum cval) = inr s
    /\ shape m = shape image /\ shape s = shape image
    /\ dtype_of m = float64 /\ dtype_of s = float64
    /\ forall idx, in_bounds (shape image) idx ->
                   get m idx == get (as_float64 image) idx
                   /\ get s idx == get (as_float64 image) idx.
Proof.
  intros Hrank Hl H1. destruct (all_ones_valid image block_size H1 Hl) as [Hv Hd].
  exists (run_result image block_size TF.reduce_mean),
         (run_result image block_size TF.reduce_sum).
  rewrite downscale_outcome. cbn [contents].
  rewrite !block_reduce_run by assumption.
  split; [reflexivity|]. split; [reflexivity|].
  unfold TF.reduce_mean, TF.reduce_sum.
  rewrite !run_result_divisible by assumption.
  rewrite block_counts_ones by assumption.
  split; [reflexivity|]. split; [reflexivity|].
  split; [reflexivity|]. split; [reflexivity|].
  intros idx Hidx. rewrite !get_tabulate by assumption.
  pose proof (in_bounds_length _ _ Hidx) as Hlen.
  rewrite block_elements_ones by (unfold ndim in Hl; congruence).
  unfold TF.mean_of; cbn [TF.is_float TF.Qsum fold_right length].
  split; [field | ring].
Qed.

Lemma unit_blocks_identity_witness :
  exists m s,
    outcome (downscale_local_mean (Ndarray image4x4) [1; 1]%Z 3) = inr (Tensor m)
    /\ outcome (block_reduce image4x4 [1; 1]%Z TF.reduce_sum 3) = inr s
    /\ shape m = shape image4x4 /\ shape s = shape image4x4
    /\ dtype_of m = float64 /\ dtype_of s = float64
    /\ forall idx, in_bounds (shape image4x4) idx ->
                   get m idx == get (as_float64 image4x4) idx
                   /\ get s idx == get (as_float64 image4x4) idx.
Proof.
  apply (unit_blocks_identity image4x4 [1; 1]%Z 3).
  - vm_compute. lia.
  - reflexivity.
  - repeat constructor.
Defined.

(** X7.  For an image of rank 1 or more and valid factors, every element
    that [downscale_local_mean] returns is the sum of the image's own
    elements in its block, converted to float64, divided by the full block
    volume: in an edge block the padding adds nothing to the sum and still
    counts in the divisor, whatever [cval]. *)
Theorem edge_blocks_divide_by_full_volume (image : value) (factors : list Z) (cval : Q) :
  1 <= ndim (contents image) ->
  valid_call (contents image) factors ->
  exists out,
    outcome (downscale_local_mean image factors cval) = inr (Tensor out)
    /\ forall b, in_bounds (shape out) b ->
         get out b
         == TF.Qsum (real_block_elements (as_float64 (contents image)) factors b)
            / block_volume factors.
Proof.
  intros Hrank Hv. exists (run_result (contents image) factors TF.reduce_mean).
  rewrite downscale_outcome, block_reduce_run by assumption.
  split; [reflexivity|]. unfold TF.reduce_mean.
  rewrite shape_run_result_reduce_with by assumption.
  intros b Hb. rewrite get_run_result_reduce_with by assumption.
  unfold TF.mean_of, block_volume; cbn [TF.is_float].
  rewrite length_block_elements.
  rewrite block_elements_padded by assumption.
  rewrite Qsum_filter. unfold real_block_elements. reflexivity.
Qed.

Lemma edge_blocks_divide_by_full_volume_witness :
  exists out,
    outcome (downscale_local_mean (Ndarray (image7 int64)) [3%Z] 5) = inr (Tensor out)
    /\ forall b, in_bounds (shape out) b ->
         get out b
         == TF.Qsum (real_block_elements (as_float64 (image7 int64)) [3%Z] b)
            / block_volume [3%Z].
Proof.
  apply (edge_blocks_divide_by_full_volume (Ndarray (image7 int64)) [3%Z] 5).
  - vm_compute. lia.
  - split; [reflexivity | repeat constructor; lia].
Defined.

(** X8.  For an image of rank 1 or more whose every extent is a multiple
    of the corresponding valid factor, [downscale_local_mean] returns the
    float64 tensor of shape [shape[axis] / factors[axis]] whose element at
    [b] is the average of the elements of block [b] of the image converted
    to float64; no padding enters the result. *)
Theorem downscale_local_mean_whole_blocks (image : value) (factors : list Z) (cval : Q) :
  1 <= ndim (contents image) ->
  valid_call (contents image) factors ->
  divisible (contents image) factors ->
  outcome (downscale_local_mean image factors cval)
  = inr (Tensor (tabulate float64 (block_counts (shape (contents image)) factors)
                   (block_average (as_float64 (contents image)) factors))).
Proof.
  intros Hrank Hv Hd.
  rewrite downscale_outcome, block_reduce_run by assumption.
  cbn [outcome snd]. do 2 f_equal.
  unfold TF.reduce_mean. rewrite run_result_divisible by assumption.
  apply tabulate_ext. intros b _.
  unfold TF.mean_of, block_average; cbn [TF.is_float].
  now rewrite length_block_elements.
Qed.

Lemma downscale_local_mean_whole_blocks_witness :
  outcome (downscale_local_mean (Tensor image4x4) [2; 2]%Z 1)
  = inr (Tensor (tabulate float64 (block_counts [4; 4] [2; 2]%Z)
                   (block_average (as_float64 image4x4) [2; 2]%Z))).
Proof.
  apply (downscale_local_mean_whole_blocks (Tensor image4x4) [2; 2]%Z 1).
  - vm_compute. lia.
  - split; [reflexivity | repeat constructor; lia].
  - repeat constructor.
Defined.

Section Extents.

Lemma ceil_div_mul (s : nat) (b : Z) :
  (1 <= b)%Z -> ceil_div s b * Z.to_nat b = s + Z.to_nat (extra s b).
Proof.
  intros Hb. rewrite <- block_count_ceil by assumption.
  pose proof (extra_bounds s b Hb) as He.
  pose proof (extra_divides s b Hb) as Hd.
  apply Z.div_exact in Hd; [|lia].
  rewrite Nat2Z.inj_add, Z2Nat.id by lia.
  assert (Hq : (0 <= (Z.of_nat s + extra s b) / b)%Z) by (apply Z.div_pos; lia).
  apply Nat2Z.inj. rewrite Nat2Z.inj_mul, Nat2Z.inj_add, !Z2Nat.id by lia. lia.
Qed.

Lemma size_zero (l : list nat) : In 0 l -> size l = 0.
Proof.
  induction l as [|x l IH]; [intros [] | intros [E|H]]; simpl.
  - now subst.
  - fold (size l). rewrite IH by assumption. lia.
Qed.

End Extents.

(** X11.  An image with no elements is not an error: when some axis of
    the image has extent 0 and the factors pass validation,
    [downscale_local_mean] returns a tensor whose extent along that axis
    is 0 and whose buffer is empty. *)
Theorem downscale_local_mean_empty_image (image : value) (factors : list Z)
    (cval : Q) (axis : nat) :
  valid_call (contents image) factors ->
  nth_error (shape (contents image)) axis = Some 0 ->
  exists out,
    outcome (downscale_local_mean image factors cval) = inr (Tensor out)
    /\ nth_error (shape out) axis = Some 0
    /\ data out = [].
Proof.
  intros Hv H0. exists (run_result (contents image) factors TF.reduce_mean).
  assert (Hrank : 1 <= ndim (contents image)).
  { unfold ndim. assert (axis < length (shape (contents image)))
      by (apply nth_error_Some; congruence). lia. }
  rewrite downscale_outcome, block_reduce_run by assumption.
  split; [reflexivity|].
  pose proof (shape_run_result _ _ TF.reduce_mean Hv
                (reduce_with_reduces_axes TF.mean_of)) as Hs.
  destruct Hv as [Hlen Hbs]. unfold ndim in Hlen.
  destruct (nth_error factors axis) as [b|] eqn:Hb.
  2:{ apply nth_error_None in Hb.
      assert (axis < length (shape (contents image)))
        by (apply nth_error_Some; congruence).
      lia. }
  assert (Hc : ceil_div 0 b = 0) by reflexivity.
  assert (Hax : nth_error (shape (run_result (contents image) factors TF.reduce_mean)) axis
                = Some 0).
  { rewrite Hs, <- Hc.
    exact (nth_error_map_combine (fun '(s, b) => ceil_div s b) _ _ _ _ _ H0 Hb). }
  split; [exact Hax|].
  pose proof (well_formed_run_result TF.mean_of (contents image) factors
                (conj Hlen Hbs)) as Hw.
  unfold well_formed in Hw. fold TF.reduce_mean in Hw.
  rewrite (size_zero _ (nth_error_In _ _ Hax)) in Hw.
  now apply length_zero_iff_nil.
Qed.

Lemma downscale_local_mean_empty_image_witness :
  exists out,
    outcome (downscale_local_mean (Ndarray (mk_ndarray float32 [0; 5] [])) [2; 2]%Z 1 )
    = inr (Tensor out)
    /\ nth_error (shape out) 0 = Some 0
    /\ data out = [].
Proof.
  apply (downscale_local_mean_empty_image
           (Ndarray (mk_ndarray float32 [0; 5] [])) [2; 2]%Z 1 0).
  - split; [reflexivity | repeat constructor; lia].
  - reflexivity.
Defined.

(** X12.  For an image of rank 1 or more and valid arguments the blocks
    cover the image with less than one block to spare: along every axis
    the extent [n] of the result of [block_reduce] satisfies
    [s <= n * b < s + b], and [n <= s], for the image's extent [s] and the
    block size [b]. *)
Theorem blocks_cover_image (image : ndarray) (block_size : list Z)
    (func : TF.reducer) (cval : Q) :
  1 <= ndim image ->
  valid_call image block_size ->
  reduces_axes func ->
  exists out,
    outcome (block_reduce image block_size func cval) = inr out
    /\ forall axis s b,
         nth_error (shape image) axis = Some s ->
         nth_error block_size axis = Some b ->
         exists n,
           nth_error (shape out) axis = Some n
           /\ (Z.of_nat s <= Z.of_nat n * b < Z.of_nat s + b)%Z
           /\ n <= s.
Proof.
  intros Hrank Hv Hf. exists (run_result image block_size func).
  rewrite block_reduce_run by assumption. split; [reflexivity|].
  intros axis s b H1 H2. exists (ceil_div s b).
  assert (Hb : (1 <= b)%Z).
  { destruct Hv as [_ Hbs]. rewrite Forall_forall in Hbs.
    apply Hbs. eapply nth_error_In; eauto. }
  split.
  - rewrite (shape_run_result image block_size func Hv Hf).
    exact (nth_error_map_combine (fun '(s, b) => ceil_div s b) _ _ _ _ _ H1 H2).
  - pose proof (ceil_div_mul s b Hb) as Hm.
    pose proof (extra_bounds s b Hb) as He.
    apply (f_equal Z.of_nat) in Hm.
    rewrite Nat2Z.inj_mul, Nat2Z.inj_add, !Z2Nat.id in Hm by lia.
    split; [lia | nia].
Qed.

Lemma blocks_cover_image_witness :
  exists out,
    outcome (block_reduce image4x4 [3; 2]%Z TF.reduce_min 0) = inr out
    /\ forall axis s b,
         nth_error (shape image4x4) axis = Some s ->
         nth_error [3; 2]%Z axis = Some b ->
         exists n,
           nth_error (shape out) axis = Some n
           /\ (Z.of_nat s <= Z.of_nat n * b < Z.of_nat s + b)%Z
           /\ n <= s.
Proof.
  apply (blocks_cover_image image4x4 [3; 2]%Z TF.reduce_min 0).
  - vm_compute. lia.
  - split; [reflexivity | repeat constructor; lia].
  - intros x axes. reflexivity.
Defined.
